(** * Growler: routing and the HTTP connection protocol

    A shallow embedding of [growler/router.py] and
    [growler/aio/http_protocol.py], with the statements that relate the
    written specification of the request-dispatch engine to that code.

    Conventions.
    - A Python [str] is represented by the generalised UTF-8 encoding of
      its code points, a [string] of bytes: a code point of the surrogate
      range, which UTF-8 proper does not encode, is written with the same
      three-byte scheme and so begins with the byte 0xED followed by a
      byte of 0xA0 or more.  Concatenation, [join] and [format] act on
      the bytes.  [str.encode()] is [encode]: it raises on a [str] that
      holds a surrogate and gives the bytes of any other.
    - Objects with identity (handlers, routers) are references: a tag
      giving the run-time class and an object id.
    - Methods that mutate [self] are state transformers. *)

From Stdlib Require Import ZArith Ascii DecimalString.
From stdpp Require Import base option list strings gmap sorting.

Open Scope string_scope.

(** ** Python values used by the code *)

(** Truthiness, the protocol behind [bool(x)] and [not x]. *)
Class PyBool (A : Type) := py_bool : A → bool.
Global Hint Mode PyBool ! : typeclass_instances.

(** The empty string is the only falsy [str]. *)
Global Instance str_py_bool : PyBool string :=
  fun s => match s with EmptyString => false | String _ _ => true end.

(** [None] is falsy; any other object answers for itself. *)
Global Instance option_py_bool {A} `{PyBool A} : PyBool (option A) :=
  fun o => match o with None => false | Some x => py_bool x end.

(** The values stored in the formatting dictionaries. *)
Inductive pyval :=
  | PyInt (n : Z)
  | PyStr (s : string).

(** [str(n)] for an [int]. *)
Definition str_of_int (n : Z) : string := NilZero.string_of_int (Z.to_int n).

(** [str(v)], which is what [format] applies to a field without a
    format specification. *)
Definition py_str (v : pyval) : string :=
  match v with
  | PyInt n => str_of_int n
  | PyStr s => s
  end.

(** The bytes that represent a [str]. *)
Definition bytes_of (s : string) : list Byte.byte :=
  String.list_byte_of_string s.

(** Does the [str] hold a code point of the surrogate range, U+D800 to
    U+DFFF?  The byte 0xED begins the code points U+D000 to U+DFFF, and
    its second byte is 0xA0 or more from U+D800 on. *)
Fixpoint has_surrogate (s : string) : bool :=
  match s with
  | EmptyString => false
  | String c s' =>
      match s' with
      | EmptyString => false
      | String d _ => (N_of_ascii c =? 237)%N && (160 <=? N_of_ascii d)%N
      end
      || has_surrogate s'
  end.

(** [s.encode()]: the codec is UTF-8 and the error handler ['strict'], so
    a surrogate raises [UnicodeEncodeError], which is [None] here. *)
Definition encode (s : string) : option (list Byte.byte) :=
  if has_surrogate s then None else Some (bytes_of s).

Module Str.

(** [s.split(sep)] for a one-character separator: never empty. *)
Fixpoint split (sep : ascii) (s : string) : list string :=
  match s with
  | EmptyString => [EmptyString]
  | String c s' =>
      if Ascii.eqb c sep then EmptyString :: split sep s'
      else match split sep s' with
           | seg :: segs => String c seg :: segs
           | [] => [String c EmptyString]
           end
  end.

(** [sep.join(parts)] *)
Fixpoint join (sep : string) (parts : list string) : string :=
  match parts with
  | [] => EmptyString
  | [p] => p
  | p :: ps => p ++ sep ++ join sep ps
  end.

(** [s[1:]] *)
Definition tail (s : string) : string :=
  match s with
  | EmptyString => EmptyString
  | String _ s' => s'
  end.

(** [s.startswith(p)], returning what follows the prefix. *)
Fixpoint strip_prefix (p s : string) : option string :=
  match p, s with
  | EmptyString, _ => Some s
  | String a p', String b s' =>
      if Ascii.eqb a b then strip_prefix p' s' else None
  | String _ _, EmptyString => None
  end.

Definition startswith (s p : string) : bool :=
  match strip_prefix p s with Some _ => true | None => false end.

Fixpoint last_char (s : string) : option ascii :=
  match s with
  | EmptyString => None
  | String c EmptyString => Some c
  | String _ s' => last_char s'
  end.

Definition is_ascii_char (c : ascii) : bool := (N_of_ascii c <? 128)%N.

Fixpoint is_ascii (s : string) : bool :=
  match s with
  | EmptyString => true
  | String c s' => is_ascii_char c && is_ascii s'
  end.

(** The ASCII members of the class [\w]. *)
Definition is_word (c : ascii) : bool :=
  let n := N_of_ascii c in
  ((48 <=? n) && (n <=? 57) || (65 <=? n) && (n <=? 90)
   || (97 <=? n) && (n <=? 122) || (n =? 95))%N.

Definition is_digit (c : ascii) : bool :=
  let n := N_of_ascii c in ((48 <=? n) && (n <=? 57))%N.

Fixpoint all_word (s : string) : bool :=
  match s with
  | EmptyString => true
  | String c s' => is_word c && all_word s'
  end.

(** [s.isidentifier()] on ASCII text. *)
Definition isidentifier (s : string) : bool :=
  match s with
  | EmptyString => false
  | String c s' => is_word c && negb (is_digit c) && all_word s'
  end.

End Str.

(** ** The fragment of Python's [re] that the router produces

    Patterns are sequences of literal characters and named groups
    [(?P<name>\w+)].  Whatever lies outside this fragment is reported as
    [Unmodelled] rather than guessed; what the fragment covers follows
    [re]: group names must be identifiers and must not repeat, [\w+] is
    greedy and backtracks, and [match] is anchored at the start only.
    Subjects are decided when they are ASCII. *)
Module Re.

Inductive item :=
  | Lit (c : ascii)
  | NamedWord (name : string).

(** A compiled pattern object: its source (the attribute [pattern])
    and its program. *)
Record Pattern := mkPattern {
  pattern : string;
  prog : list item
}.

Inductive error :=
  | BadGroupName (name : string)
  | MissingGroupName
  | UnterminatedName
  | Redefinition (name : string).

Inductive compiled :=
  | Compiled (p : Pattern)
  | Raises (e : error)
  | Unmodelled.

Definition is_meta (c : ascii) : bool :=
  existsb (Ascii.eqb c)
    ["."; "^"; "$"; "*"; "+"; "?"; "{"; "}"; "["; "]"; "\"; "|"; "("; ")"]%char.

(** The parser reads one character at a time.  The tokenizer of [re]
    reads a backslash together with the character after it: the only
    backslash the model reads is that of [\w] in the body of a group,
    and a pattern with another, in a group name as well, is not
    modelled. *)
Inductive mode :=
  | Top
  | Header (expect : string)
  | Name (acc : string)
  | Body (name : string) (expect : string).

Definition group_names (its : list item) : list string :=
  omap (fun it => match it with NamedWord n => Some n | Lit _ => None end) its.

Inductive outcome :=
  | Go (m : mode) (acc : list item)
  | Stop (r : compiled).

Definition step (m : mode) (acc : list item) (c : ascii) : outcome :=
  match m with
  | Top =>
      if Ascii.eqb c "(" then Go (Header "?P<") acc
      else if is_meta c then Stop Unmodelled
      else Go Top (acc ++ [Lit c])
  | Header expect =>
      match expect with
      | String e EmptyString =>
          if Ascii.eqb c e then Go (Name "") acc else Stop Unmodelled
      | String e expect' =>
          if Ascii.eqb c e then Go (Header expect') acc else Stop Unmodelled
      | EmptyString => Stop Unmodelled
      end
  | Name name =>
      if Ascii.eqb c ">" then
        if String.eqb name "" then Stop (Raises MissingGroupName)
        else if negb (Str.isidentifier name) then Stop (Raises (BadGroupName name))
        else if bool_decide (name ∈ group_names acc) then Stop (Raises (Redefinition name))
        else Go (Body name "\w+)") acc
      else if Ascii.eqb c "\" then Stop Unmodelled
      else Go (Name (name ++ String c "")) acc
  | Body name expect =>
      match expect with
      | String e EmptyString =>
          if Ascii.eqb c e then Go Top (acc ++ [NamedWord name]) else Stop Unmodelled
      | String e expect' =>
          if Ascii.eqb c e then Go (Body name expect') acc else Stop Unmodelled
      | EmptyString => Stop Unmodelled
      end
  end.

Fixpoint parse (m : mode) (acc : list item) (src rest : string) : compiled :=
  match rest with
  | EmptyString =>
      match m with
      | Top => Compiled (mkPattern src acc)
      | Name "" => Raises MissingGroupName
      | Name _ => Raises UnterminatedName
      | Header _ | Body _ _ => Unmodelled
      end
  | String c rest' =>
      match step m acc c with
      | Go m' acc' => parse m' acc' src rest'
      | Stop r => r
      end
  end.

(** [re.compile(src)] *)
Definition compile (src : string) : compiled :=
  if Str.is_ascii src then parse Top [] src src else Unmodelled.

(** A match object of [Pattern.match]: it starts at 0. *)
Record Match := mkMatch {
  m_end : nat;
  groupdict : gmap string string
}.

(** Match objects are always truthy. *)
Global Instance match_py_bool : PyBool Match := fun _ => true.

Section Matching.
Context {R : Type}.

(** Greedy [\w+]: the longest run first, then shorter ones, never
    empty. [k] continues with the captured text and what is left. *)
Fixpoint word_plus (k : string → string → option R)
    (taken : string) (s : string) : option R :=
  match s with
  | EmptyString => None
  | String c s' =>
      if Str.is_word c then
        let taken' := taken ++ String c EmptyString in
        match word_plus k taken' s' with
        | Some r => Some r
        | None => k taken' s'
        end
      else None
  end.
End Matching.

(** Runs the program on the subject; answers with the captures and
    the unconsumed rest of the subject. *)
Fixpoint run (its : list item) (s : string)
    : option (gmap string string * string) :=
  match its with
  | [] => Some (∅, s)
  | Lit c :: its' =>
      match s with
      | String c' s' => if Ascii.eqb c c' then run its' s' else None
      | EmptyString => None
      end
  | NamedWord name :: its' =>
      word_plus
        (fun captured rest =>
           '(groups, rest') ← run its' rest;
           Some (<[name := captured]> groups, rest'))
        EmptyString s
  end.

Inductive match_result :=
  | Matched (m : Match)
  | NoMatch
  | MatchUnmodelled.

(** [p.match(s)] *)
Definition match_ (p : Pattern) (s : string) : match_result :=
  if Str.is_ascii s then
    match run (prog p) s with
    | Some (groups, rest) =>
        Matched (mkMatch (String.length s - String.length rest) groups)
    | None => NoMatch
    end
  else MatchUnmodelled.

End Re.


(** ** [str.format]

    The template is parsed into literal text and replacement fields,
    then rendered: a field [{}] takes the next positional argument and a
    field [{name}] the keyword argument [name]; the value is inserted
    as [str(value)] and is not scanned again.  Fields with a conversion,
    a format specification or an attribute path do not occur in the code
    and are not modelled. *)
Module Format.

Inductive piece :=
  | Text (c : ascii)
  | Field (name : string).

Inductive mode :=
  | Outside
  | Opened
  | Inside (name : string)
  | Closing.

Definition plain_name_char (c : ascii) : bool :=
  negb (existsb (Ascii.eqb c) ["{"; "."; "["; "]"; "!"; ":"]%char).

Fixpoint parse (m : mode) (template : string) : option (list piece) :=
  match template with
  | EmptyString =>
      match m with Outside => Some [] | _ => None end
  | String c t =>
      match m with
      | Outside =>
          if Ascii.eqb c "{" then parse Opened t
          else if Ascii.eqb c "}" then parse Closing t
          else cons (Text c) <$> parse Outside t
      | Opened =>
          if Ascii.eqb c "{" then cons (Text "{") <$> parse Outside t
          else if Ascii.eqb c "}" then cons (Field "") <$> parse Outside t
          else if plain_name_char c then parse (Inside (String c "")) t
          else None
      | Inside name =>
          if Ascii.eqb c "}" then cons (Field name) <$> parse Outside t
          else if plain_name_char c then parse (Inside (name ++ String c "")) t
          else None
      | Closing =>
          if Ascii.eqb c "}" then cons (Text "}") <$> parse Outside t
          else None
      end
  end.

Fixpoint render (pieces : list piece) (next : nat)
    (args : list pyval) (kwargs : gmap string pyval) : option string :=
  match pieces with
  | [] => Some ""
  | Text c :: ps => String c <$> render ps next args kwargs
  | Field "" :: ps =>
      v ← args !! next;
      rest ← render ps (S next) args kwargs;
      Some (py_str v ++ rest)
  | Field name :: ps =>
      v ← kwargs !! name;
      rest ← render ps next args kwargs;
      Some (py_str v ++ rest)
  end.

(** [template.format( *args, **kwargs)]; [None] when Python raises or
    the template is not modelled. *)
Definition format (template : string)
    (args : list pyval) (kwargs : gmap string pyval) : option string :=
  pieces ← parse Outside template;
  render pieces 0 args kwargs.

End Format.

(** ** State transformers for methods that mutate [self] *)
Definition State (S A : Type) : Type := S → A * S.

Global Instance state_ret {S} : MRet (State S) := fun A x s => (x, s).
Global Instance state_bind {S} : MBind (State S) :=
  fun A B f c s => let '(x, s') := c s in f x s'.

(** ** Objects *)

(** The run-time class of an object that can be registered as a
    handler: [Router] inherits from [MiddlewareChain]. *)
Inductive pyclass :=
  | FunctionType
  | MiddlewareChainType
  | RouterType.

Global Instance pyclass_eq_dec : EqDecision pyclass.
Proof. solve_decision. Defined.

(** A reference to an object. *)
Record obj := mkObj {
  obj_class : pyclass;
  obj_id : nat
}.

Global Instance obj_eq_dec : EqDecision obj.
Proof. solve_decision. Defined.

(** [isinstance(o, MiddlewareChain)] *)
Definition is_chain (o : obj) : bool :=
  match obj_class o with
  | MiddlewareChainType | RouterType => true
  | FunctionType => false
  end.

(** [isinstance(o, Router)] *)
Definition is_router (o : obj) : bool :=
  match obj_class o with
  | RouterType => true
  | MiddlewareChainType | FunctionType => false
  end.

(** A leaf handler: a callable that is not a chain. *)
Definition is_leaf (o : obj) : bool := negb (is_chain o).

(** Modelled from the spec: [growler/http/methods.py] is not among the
    sources.  "Method registration surface: exactly the verbs GET, POST,
    PUT, DELETE, plus ALL (wildcard)". *)
Inductive HTTPMethod := ALL | GET | POST | PUT | DELETE.

Global Instance HTTPMethod_eq_dec : EqDecision HTTPMethod.
Proof. solve_decision. Defined.

(** What is given as a path: a [str], or a compiled pattern object. *)
Inductive PathArg :=
  | PathStr (s : string)
  | PathRegex (p : Re.Pattern).

(** ** The middleware chain *)
Module MiddlewareChain.

(** Modelled from the spec: [growler/middleware_chain.py] is not among
    the sources.  "Entry (mask, pattern, handler)"; the attribute names
    are those [Router.iter_routes] reads. *)
Record Entry := mkEntry {
  mask : HTTPMethod;
  path : PathArg;
  func : obj
}.

(** The state of a chain object: the list [self.mw_list], which the
    router reads in [iter_routes] and [subrouters]. *)
Record t := mk {
  mw_list : list Entry
}.

(** Modelled from the spec: the chain's registration, absent from the
    sources.  "register(mask, pattern, handler) appends an Entry; never
    mutates existing entries". *)
Definition add (method_mask : HTTPMethod) (path : PathArg) (func : obj)
    : State t unit :=
  fun self => (tt, mk (mw_list self ++ [mkEntry method_mask path func])).

(** Modelled from the spec: "method matching is exact against the
    bitmask (an ALL mask matches every method)". *)
Definition matches_method (mask method : HTTPMethod) : bool :=
  bool_decide (mask = ALL) || bool_decide (mask = method).

(** What splitting a path gives: the match object or [None], and the
    residual; or no answer, when the subject is outside the modelled
    fragment of [re]. *)
Inductive split :=
  | Split (matching : option Re.Match) (rest : string)
  | SplitUnmodelled.

(** Modelled from the spec: the segment boundary of a split, absent from
    the sources.  "prefix must respect segment boundaries" ([/blog]
    does not match [/blogger]): a non-empty residual starts at a [/],
    or follows one. *)
Definition at_boundary (matched rest : string) : bool :=
  match rest with
  | EmptyString => true
  | String c _ =>
      Ascii.eqb c "/" || bool_decide (Str.last_char matched = Some "/"%char)
  end.

(** Modelled from the spec: the split of a path by an entry's pattern,
    absent from the sources.  "For a literal or regex pattern, matching
    is anchored at the start of path; a match yields any named captures
    plus the unmatched remainder of path (the residual)". *)
Definition path_split (mw : Entry) (request_path : string) : split :=
  match path mw with
  | PathStr literal =>
      match Str.strip_prefix literal request_path with
      | Some rest =>
          if at_boundary literal rest
          then Split (Some (Re.mkMatch (String.length literal) ∅)) rest
          else Split None ""
      | None => Split None ""
      end
  | PathRegex p =>
      match Re.match_ p request_path with
      | Re.Matched m =>
          let matched := String.substring 0 (Re.m_end m) request_path in
          let rest := String.substring (Re.m_end m)
                        (String.length request_path - Re.m_end m) request_path in
          if at_boundary matched rest then Split (Some m) rest
          else Split None ""
      | Re.NoMatch => Split None ""
      | Re.MatchUnmodelled => SplitUnmodelled
      end
  end.

(** Modelled from the spec: one result of matching, "(handler,
    captured_params, residual_path)". *)
Record Found := mkFound {
  handler : obj;
  params : gmap string string;
  residual : string
}.

(** Modelled from the spec: the chain's match operation, absent from
    the sources.  "match(method, path) produces a ... sequence of
    (handler, captured_params, residual_path) tuples, one per Entry
    whose mask includes method and whose pattern matches a prefix (or
    the whole) of path", the entry being left out when the per-entry
    decision [should_skip] says so.  The decision is a method of the
    chain object, which a subclass overrides. *)
Fixpoint walk (should_skip : Entry → option Re.Match → string → bool)
    (mws : list Entry) (method : HTTPMethod) (request_path : string)
    : option (list Found) :=
  match mws with
  | [] => Some []
  | mw :: mws' =>
      if negb (matches_method (mask mw) method)
      then walk should_skip mws' method request_path
      else
        match path_split mw request_path with
        | SplitUnmodelled => None
        | Split matching rest =>
            if should_skip mw matching rest
            then walk should_skip mws' method request_path
            else
              let groups := from_option Re.groupdict ∅ matching in
              cons (mkFound (func mw) groups rest)
                <$> walk should_skip mws' method request_path
        end
  end.

(** Modelled from the spec: [self(method, path)] of a chain, the walk
    over its own [mw_list]. *)
Definition call (should_skip : Entry → option Re.Match → string → bool)
    (self : t) (method : HTTPMethod) (request_path : string)
    : option (list Found) :=
  walk should_skip (mw_list self) method request_path.

End MiddlewareChain.

(** The request object, as far as the router reads it; it is built by
    a collaborator and carries more than the router looks at. *)
Module HTTPRequest.
Record t := mk {
  method : HTTPMethod;
  path : string;
  headers : list (string * string);
  body : option string
}.
End HTTPRequest.

(** ** [growler/router.py]: class [Router(MiddlewareChain)] *)
Module Router.
Import MiddlewareChain.

(** A router is a chain; its state is the inherited [mw_list]. *)
Abbreviation t := MiddlewareChain.t.

(** [add_router(self, path, router)] (returns [self]) *)
Definition add_router (path : PathArg) (router : obj) : State t unit :=
  add ALL path router.

(** What [_add_route] returns: [self], or the lambda that registers
    its argument and returns it. *)
Inductive add_route_result :=
  | Self
  | Decorator (lambda : obj → State t obj).

(** [_add_route(self, method, path, middleware=None)] *)
Definition _add_route (method : HTTPMethod) (path : PathArg)
    (middleware : option obj) : State t add_route_result :=
  match middleware with
  | Some mw =>
      _ ← add method path mw;
      mret Self
  | None =>
      mret (Decorator (fun func =>
              _ ← add method path func;
              mret func))
  end.

Definition all (path : PathArg) (middleware : option obj) :=
  _add_route ALL path middleware.

Definition get (path : PathArg) (middleware : option obj) :=
  _add_route GET path middleware.

Definition post (path : PathArg) (middleware : option obj) :=
  _add_route POST path middleware.

Definition put (path : PathArg) (middleware : option obj) :=
  _add_route PUT path middleware.

Definition delete (path : PathArg) (middleware : option obj) :=
  _add_route DELETE path middleware.

Section Use.
(** The constant [MiddlewareChain.ROOT_PATTERN], defined outside the
    sources. *)
Variable ROOT_PATTERN : PathArg.

(** [use(self, middleware, path=None)] (returns [self]; the log line
    is not part of the model) *)
Definition use (middleware : obj) (path : option PathArg) : State t unit :=
  let path := match path with None => ROOT_PATTERN | Some p => p end in
  add ALL path middleware.
End Use.

(** [should_skip_middleware(self, middleware, matching, rest)]:
    [bool(not matching) or bool(rest)] *)
Definition should_skip_middleware {M R} `{PyBool M} `{PyBool R}
    (middleware : Entry) (matching : M) (rest : R) : bool :=
  negb (py_bool matching) || py_bool rest.

(** [self(method, path)]: the inherited match operation, with the
    router's own per-entry decision. *)
Definition __call__ (self : t) (method : HTTPMethod) (request_path : string)
    : option (list Found) :=
  call should_skip_middleware self method request_path.

(** [match_routes(self, req)] *)
Definition match_routes (self : t) (req : HTTPRequest.t)
    : option (list Found) :=
  __call__ self (HTTPRequest.method req) (HTTPRequest.path req).

(** [iter_routes(self)] *)
Definition iter_routes (self : t) : list (HTTPMethod * PathArg * obj) :=
  map (fun mw => (mask mw, path mw, func mw)) (mw_list self).

(** The property [routes] *)
Definition routes (self : t) : list (HTTPMethod * PathArg * obj) :=
  iter_routes self.

(** The property [subrouters] *)
Definition subrouters (self : t) : list Entry :=
  List.filter (fun mw => is_router (func mw)) (mw_list self).

(** [sinatra_param_regex.match(segment)], for the class attribute
    [sinatra_param_regex = re.compile(r":(\w+)")]: a match object when
    the segment begins with a colon and a word character. *)
Definition sinatra_param_match (segment : string) : bool :=
  match segment with
  | String ":" (String c _) => Str.is_word c
  | _ => false
  end.

(** One element of the comprehension in [sinatra_path_to_regex]. *)
Definition segment_regex (segment : string) : option string :=
  if sinatra_param_match segment
  then Format.format "(?P<{}>\w+)" [PyStr (Str.tail segment)] ∅
  else Some segment.

(** [sinatra_path_to_regex(cls, path)].  A path with bytes outside
    ASCII is left undecided, the class of word characters being
    modelled on ASCII. *)
Definition sinatra_path_to_regex (path : PathArg) : Re.compiled :=
  match path with
  | PathRegex p => Re.Compiled p
  | PathStr s =>
      if Str.is_ascii s then
        match mapM segment_regex (Str.split "/" s) with
        | Some regex => Re.compile (Str.join "/" regex)
        | None => Re.Unmodelled
        end
      else Re.Unmodelled
  end.

End Router.


(** ** [growler/aio/http_protocol.py]: class [GrowlerHTTPProtocol] *)
Module GrowlerHTTPProtocol.

Definition CR : ascii := "013"%char.
Definition LF : ascii := "010"%char.
(** The literal ["\r\n"] *)
Definition CRLF : string := String CR (String LF "").

(** The errors that reach [handle_error]: an [HTTPError] with its
    attributes [code] and [msg], or any other exception, of which the
    code reads [str(error)] and the lines [traceback.print_tb] prints
    for [error.__traceback__]. *)
Inductive Error :=
  | HTTPError (code : Z) (msg : string)
  | OtherError (text : string) (tb : list string).

(** The text of an error that goes into the response: [error.msg], or
    [str(error)] by ["%s" % error]. *)
Definition error_text (error : Error) : string :=
  match error with
  | HTTPError _ msg => msg
  | OtherError text _ => text
  end.

(** What the method touches outside its arguments: the transport of
    the connection (the arguments of the [write] calls so far),
    [sys.stderr], and the clock behind
    [HTTPResponse.get_current_time()]. *)
Record World := mkWorld {
  transport : list (list Byte.byte);
  stderr : string;
  current_time : string
}.

(** [self.transport.write(data)] *)
Definition transport_write (data : list Byte.byte) (w : World) : World :=
  mkWorld (transport w ++ [data]) (stderr w) (current_time w).

(** [print(text, file=stderr)] *)
Definition print_stderr (text : string) (w : World) : World :=
  mkWorld (transport w) (stderr w ++ text ++ String LF "") (current_time w).

(** [traceback.print_tb(tb, file=stderr)] *)
Definition print_tb (tb : list string) (w : World) : World :=
  mkWorld (transport w) (stderr w ++ String.concat "" tb) (current_time w).

Definition err_str_template : string :=
  "<html>"
  ++ "<head></head>"
  ++ "<body><h1>HTTP Error : {code} {message}</h1><p>{info}</p></body>"
  ++ "</html>" ++ String LF "".

Definition response_template : string :=
  Str.join CRLF [
    "HTTP/1.1 {code} {msg}";
    "Content-Type: text/html; charset=UTF-8";
    "Content-Length: {length}";
    "Date: {date}";
    "";
    "{contents}" ].

(** An exception that leaves [handle_error]: [str.encode()] raises
    [UnicodeEncodeError]; [FormatFailed] is [str.format] raising, or
    reading a template that [Format.parse] does not model. *)
Inductive Exception :=
  | UnicodeEncodeError
  | FormatFailed.

(** How a call ends. *)
Inductive Completion :=
  | Returned
  | Raised (e : Exception).

(** [handle_error(self, error)]: what was printed before an exception
    stays printed. *)
Definition handle_error (error : Error) : State World Completion :=
  fun w =>
  let '(err_code, err_msg, err_info, w) :=
    match error with
    | HTTPError code msg => (code, msg, "", w)
    | OtherError text tb =>
        (500%Z, "Server Error", text,
         print_tb tb (print_stderr "Unexpected Server Error" w))
    end in
  match Format.format err_str_template []
          (<["code" := PyInt err_code]>
           (<["message" := PyStr err_msg]>
            (<["info" := PyStr err_info]> ∅))) with
  | None => (Raised FormatFailed, w)
  | Some err_str =>
      match encode err_str with
      | None => (Raised UnicodeEncodeError, w)
      | Some err_bytes =>
          let header_info : gmap string pyval :=
            <["code" := PyInt err_code]>
            (<["msg" := PyStr err_msg]>
             (<["date" := PyStr (current_time w)]>
              (<["length" := PyInt (Z.of_nat (length err_bytes))]>
               (<["contents" := PyStr err_str]> ∅)))) in
          match Format.format response_template [] header_info with
          | None => (Raised FormatFailed, w)
          | Some response =>
              match encode response with
              | None => (Raised UnicodeEncodeError, w)
              | Some data => (Returned, transport_write data w)
              end
          end
      end
  end.

(** *** [body_storage_pair] *)

(** What is sent into the generator: [None] (as [next] does) or the
    body data. *)
Inductive pydata :=
  | PyNone
  | PyBytes (data : list Byte.byte).

(** An [asyncio.Future]. *)
Inductive Future :=
  | Pending
  | Finished (result : pydata)
  | Cancelled.

(** Where the generator [send_body] stands. *)
Inductive Frame :=
  | NotStarted
  | AtFirstYield
  | AtSecondYield
  | Closed.

(** The future is shared by the generator's closure and the caller. *)
Record Pair := mkPair {
  future : Future;
  sender : Frame
}.

Inductive Outcome :=
  | Yields (v : pydata)
  | StopIteration
  | InvalidStateError
  | TypeError.

(** [future.set_result(data)] *)
Definition set_result (data : pydata) (f : Future) : option Future :=
  match f with
  | Pending => Some (Finished data)
  | Finished _ | Cancelled => None
  end.

(** [sender.send(value)]: the generator runs from where it stands to
    its next [yield], or to its end. *)
Definition send (value : pydata) : State Pair Outcome :=
  fun p =>
    match sender p with
    | NotStarted =>
        match value with
        | PyNone => (Yields PyNone, mkPair (future p) AtFirstYield)
        | PyBytes _ => (TypeError, p)
        end
    | AtFirstYield =>
        match set_result value (future p) with
        | Some f => (Yields PyNone, mkPair f AtSecondYield)
        | None => (InvalidStateError, mkPair (future p) Closed)
        end
    | AtSecondYield => (StopIteration, mkPair (future p) Closed)
    | Closed => (StopIteration, p)
    end.

(** [next(sender)] *)
Definition next : State Pair Outcome := send PyNone.

(** [body_storage_pair(self)]: the pair it returns. *)
Definition body_storage_pair : Pair :=
  let future := Pending in
  let sender := NotStarted in
  snd (next (mkPair future sender)).

(** [await future] once it is done: its result. *)
Definition result (f : Future) : option pydata :=
  match f with
  | Finished v => Some v
  | Pending | Cancelled => None
  end.

(** A caller driving the returned handle by a sequence of sends. *)
Fixpoint drive (values : list pydata) (p : Pair) : list Outcome * Pair :=
  match values with
  | [] => ([], p)
  | v :: vs =>
      let '(o, p') := send v p in
      let '(os, p'') := drive vs p' in
      (o :: os, p'')
  end.

End GrowlerHTTPProtocol.


(** ** The specification's reading of path compilation

    "splits on [/], and for each segment matching [:name], substitutes a
    named-capture-group equivalent to [name], rejoining with [/].  Only
    whole segments starting with [:] are treated as parameters;
    partial-segment matches are not parameterized." *)
Module SpecCompile.

(** A whole segment [:name], [name] being one or more word
    characters. *)
Definition is_param_segment (segment : string) : bool :=
  match segment with
  | String ":" (String c name) => Str.is_word c && Str.all_word name
  | _ => false
  end.

Definition segment_regex (segment : string) : string :=
  if is_param_segment segment
  then "(?P<" ++ Str.tail segment ++ ">\w+)"
  else segment.

Definition compile (path : PathArg) : Re.compiled :=
  match path with
  | PathRegex p => Re.Compiled p
  | PathStr s =>
      if Str.is_ascii s
      then Re.compile (Str.join "/" (map segment_regex (Str.split "/" s)))
      else Re.Unmodelled
  end.

End SpecCompile.

(** ** The specification's wire format of an error response *)
Module SpecWire.
Import GrowlerHTTPProtocol.

(** "<html><head></head><body><h1>HTTP Error : <code> <message></h1>
    <p><detail></p></body></html>\n" *)
Definition body (code : Z) (message detail : string) : string :=
  "<html><head></head><body><h1>HTTP Error : " ++ str_of_int code ++ " "
  ++ message ++ "</h1><p>" ++ detail ++ "</p></body></html>" ++ String LF "".

(** Status line, the three headers, a blank line, the body. *)
Definition response (code : Z) (message detail date : string) : string :=
  "HTTP/1.1 " ++ str_of_int code ++ " " ++ message ++ CRLF
  ++ "Content-Type: text/html; charset=UTF-8" ++ CRLF
  ++ "Content-Length: "
  ++ str_of_int (Z.of_nat (length (bytes_of (body code message detail)))) ++ CRLF
  ++ "Date: " ++ date ++ CRLF
  ++ CRLF
  ++ body code message detail.

End SpecWire.

(** ** Objects and routers of the examples *)
Module Examples.
Import MiddlewareChain.

Definition empty_router : Router.t := MiddlewareChain.mk [].

(** A plain request handler, a sub-router, and a chain that is not a
    router. *)
Definition page : obj := mkObj FunctionType 1.
Definition blog_router : obj := mkObj RouterType 2.
Definition plain_chain : obj := mkObj MiddlewareChainType 3.

(** [root.add_router("/blog", blog_router)] *)
Definition root : Router.t :=
  snd (Router.add_router (PathStr "/blog") blog_router empty_router).

Definition blog_entry : Entry := mkEntry ALL (PathStr "/blog") blog_router.

(** [re.compile("/blog")] *)
Definition blog_pattern : Re.Pattern :=
  Re.mkPattern "/blog" [Re.Lit "/"; Re.Lit "b"; Re.Lit "l"; Re.Lit "o"; Re.Lit "g"]%char.

(** The same mount with the compiled path. *)
Definition root_compiled : Router.t :=
  snd (Router.add_router (PathRegex blog_pattern) blog_router empty_router).

Definition blog_entry_compiled : Entry :=
  mkEntry ALL (PathRegex blog_pattern) blog_router.

(** [site.get("/home", page)] *)
Definition site : Router.t :=
  snd (Router.get (PathStr "/home") (Some page) empty_router).

Definition home_entry : Entry := mkEntry GET (PathStr "/home") page.

(** The match object of a literal of [n] characters. *)
Definition literal_match (n : nat) : Re.Match := Re.mkMatch n ∅.

(** [re.compile("/users/(?P<id>\w+)")] *)
Definition users_pattern : Re.Pattern :=
  Re.mkPattern "/users/(?P<id>\w+)"
    [Re.Lit "/"; Re.Lit "u"; Re.Lit "s"; Re.Lit "e"; Re.Lit "r"; Re.Lit "s";
     Re.Lit "/"; Re.NamedWord "id"]%char.

(** A router holding a handler, a sub-router, a plain chain and the
    sub-router again. *)
Definition mixed : Router.t :=
  MiddlewareChain.mk
    [ mkEntry GET (PathStr "/home") page;
      mkEntry ALL (PathStr "/blog") blog_router;
      mkEntry ALL (PathStr "/static") plain_chain;
      mkEntry POST (PathStr "/blog2") blog_router ].

Definition static_entry : Entry := mkEntry ALL (PathStr "/static") plain_chain.

(** The five registration methods with their masks. *)
Definition verbs
    : list ((PathArg → option obj → State Router.t Router.add_route_result)
            * HTTPMethod) :=
  [ (Router.all, ALL); (Router.get, GET); (Router.post, POST);
    (Router.put, PUT); (Router.delete, DELETE) ].

(** [b"test data"] *)
Definition test_data : GrowlerHTTPProtocol.pydata :=
  GrowlerHTTPProtocol.PyBytes (bytes_of "test data").

Definition quiet_world : GrowlerHTTPProtocol.World :=
  GrowlerHTTPProtocol.mkWorld [] "" "Tue, 03 Nov 2026 22:08:00 GMT".

(** ["\udcff"], the code point that the error handler
    ['surrogateescape'] gives for the byte 0xFF, as when a file name
    that is not UTF-8 is decoded. *)
Definition lone_surrogate : string :=
  String "237" (String "179" (String "191" "")).

(** [str(FileNotFoundError(2, "No such file or directory", name))] for
    such a file name. *)
Definition missing_file : string :=
  "[Errno 2] No such file or directory: 'caf" ++ lone_surrogate ++ "'".

End Examples.

(** ** [growler/router.py]: route discovery

    The functions after class [Router]: they scan the attributes of an
    object for callables named after an HTTP verb, and read the path of
    each from the first word of its docstring. *)
Module Discovery.
Import MiddlewareChain.

(** [c.upper()] and [c.lower()] on ASCII. *)
Definition upper_char (c : ascii) : ascii :=
  let n := N_of_ascii c in
  if ((97 <=? n) && (n <=? 122))%N then ascii_of_N (n - 32) else c.

Definition lower_char (c : ascii) : ascii :=
  let n := N_of_ascii c in
  if ((65 <=? n) && (n <=? 90))%N then ascii_of_N (n + 32) else c.

(** [s.upper()] on ASCII text. *)
Fixpoint upper (s : string) : string :=
  match s with
  | EmptyString => EmptyString
  | String c s' => String (upper_char c) (upper s')
  end.

(** The alternatives of [ROUTABLE_NAME_REGEX], in its order. *)
Definition routable_verbs : list string :=
  ["all"; "get"; "post"; "put"; "delete"].

(** A literal of the pattern against the subject under [re.IGNORECASE]:
    the text it matched and what follows. *)
Fixpoint match_literal_ignorecase (literal s : string) : option (string * string) :=
  match literal, s with
  | EmptyString, _ => Some (EmptyString, s)
  | String a literal', String b s' =>
      if Ascii.eqb (lower_char a) (lower_char b) then
        '(matched, rest) ← match_literal_ignorecase literal' s';
        Some (String b matched, rest)
      else None
  | String _ _, EmptyString => None
  end.

(** One alternative of the group, then the underscore; [.*] matches
    whatever follows. *)
Definition match_verb (verb attr : string) : option string :=
  match match_literal_ignorecase verb attr with
  | Some (matched, String "_" _) => Some matched
  | _ => None
  end.

(** [ROUTABLE_NAME_REGEX.match(attr)], for
    [re.compile("(all|get|post|put|delete)_.*", re.IGNORECASE + re.UNICODE)]:
    [group(1)] of the match, on an ASCII name. *)
Definition routable_name_match (attr : string) : option string :=
  list_find (fun verb => is_Some (match_verb verb attr)) routable_verbs
    ≫= fun '(_, verb) => match_verb verb attr.

(** Modelled from the spec: the lookup [HTTPMethod[name]] of the
    enumeration, which is not among the sources; [None] is the
    [KeyError] of an unknown name. *)
Definition HTTPMethod_by_name (name : string) : option HTTPMethod :=
  if String.eqb name "ALL" then Some ALL
  else if String.eqb name "GET" then Some GET
  else if String.eqb name "POST" then Some POST
  else if String.eqb name "PUT" then Some PUT
  else if String.eqb name "DELETE" then Some DELETE
  else None.

(** The ASCII characters [str.split()] treats as whitespace. *)
Definition is_space (c : ascii) : bool :=
  let n := N_of_ascii c in
  ((9 <=? n) && (n <=? 13) || (28 <=? n) && (n <=? 32))%N.

(** [s.lstrip()] *)
Fixpoint lstrip (s : string) : string :=
  match s with
  | EmptyString => EmptyString
  | String c s' => if is_space c then lstrip s' else s
  end.

(** The first run of characters that are not whitespace, and the rest. *)
Fixpoint first_word (s : string) : string * string :=
  match s with
  | EmptyString => (EmptyString, EmptyString)
  | String c s' =>
      if is_space c then (EmptyString, s)
      else let '(w, rest) := first_word s' in (String c w, rest)
  end.

(** [s.split(maxsplit=1)] *)
Definition split_maxsplit1 (s : string) : list string :=
  match lstrip s with
  | EmptyString => []
  | s1 =>
      let '(w, rest) := first_word s1 in
      match lstrip rest with
      | EmptyString => [w]
      | rest' => [w; rest']
      end
  end.

(** What an attribute of the scanned object holds: an object that is
    not callable, or a callable (a function, a bound method, a chain). *)
Inductive value :=
  | NotCallable
  | Callable (val : obj).

(** The [__doc__] of a callable: [None], a [str], or an object of
    another class, since any object can be assigned to the [__doc__] of
    a function.  Of such an object the code asks for the attribute
    [split] only: [has_split] tells whether it has one (an [int] has
    none, a [bytes] has). *)
Inductive docstring :=
  | DocNone
  | DocStr (text : string)
  | DocObject (has_split : bool).

(** What the code reads and writes of a callable: its [__doc__], and
    whether [__doc__] can be assigned (it cannot on a bound method). *)
Record Cell := mkCell {
  __doc__ : docstring;
  doc_writable : bool
}.

(** The docstring, when it is a [str]. *)
Definition doc (cell : Cell) : option string :=
  match __doc__ cell with
  | DocStr text => Some text
  | DocNone | DocObject _ => None
  end.

(** The callables, by object id; function objects are shared by the
    attributes that refer to them. *)
Definition Heap : Type := nat → Cell.

Definition set_doc (val : obj) (text : string) (heap : Heap) : Heap :=
  fun i => if decide (i = obj_id val)
           then mkCell (DocStr text) (doc_writable (heap i))
           else heap i.

(** How the iteration of a generator ends.  [Undecided] stands for a
    name or a docstring outside ASCII, on which the model of the regular
    expression and of [split] does not decide, and for a docstring that
    is not a [str] and has a [split] of its own. *)
Inductive Ending :=
  | Exhausted
  | AttributeError
  | KeyError
  | Undecided.

(** One turn of the loop of [_find_routeable_attributes(obj, keys)]:
    what it yields for [attr], if anything. *)
Definition find_routeable (attrs : gmap string value) (heap : Heap)
    (attr : string) : option (obj * string) :=
  matches ← routable_name_match attr;
  match attrs !! attr with
  | None => None
  | Some NotCallable => None
  | Some (Callable val) =>
      match __doc__ (heap (obj_id val)) with
      | DocNone => None
      | DocStr _ | DocObject _ => Some (val, upper matches)
      end
  end.

(** [_find_routeable_attributes(obj, keys)], run to its end. *)
Definition _find_routeable_attributes (attrs : gmap string value) (heap : Heap)
    (keys : list string) : list (obj * string) :=
  omap (find_routeable attrs heap) keys.

(** [dir(obj)]: the names of the attributes, sorted. *)
Definition dir (attrs : gmap string value) : list string :=
  merge_sort String.le (elements (dom attrs)).

(** [path, *doc = text.split(maxsplit=1) or ('', '')] *)
Definition path_and_doc (text : string) : string * list string :=
  match split_maxsplit1 text with
  | [] => (EmptyString, [EmptyString])
  | path :: rest => (path, rest)
  end.

(** The loop of [get_routing_attributes] over the keys; the generator it
    draws from is advanced one key at a time, so that it sees the
    docstrings as the loop has left them. *)
Fixpoint routing_loop (attrs : gmap string value) (modify_doc : bool)
    (keys : list string) (heap : Heap)
    : list (HTTPMethod * string * obj) * Ending * Heap :=
  match keys with
  | [] => ([], Exhausted, heap)
  | attr :: keys' =>
      if negb (Str.is_ascii attr) then ([], Undecided, heap)
      else
        match find_routeable attrs heap attr with
        | None => routing_loop attrs modify_doc keys' heap
        | Some (val, method_str) =>
            match __doc__ (heap (obj_id val)) with
            | DocNone | DocObject false => ([], AttributeError, heap)
            | DocObject true => ([], Undecided, heap)
            | DocStr text =>
                if negb (Str.is_ascii text) then ([], Undecided, heap)
                else
                  let '(path, rest) := path_and_doc text in
                  if negb (py_bool path)
                  then routing_loop attrs modify_doc keys' heap
                  else if modify_doc && negb (doc_writable (heap (obj_id val)))
                  then ([], AttributeError, heap)
                  else
                    let heap' :=
                      if modify_doc then set_doc val (String.concat "" rest) heap
                      else heap in
                    match HTTPMethod_by_name method_str with
                    | None => ([], KeyError, heap')
                    | Some method =>
                        let '(routes, ending, heap'') :=
                          routing_loop attrs modify_doc keys' heap' in
                        ((method, path, val) :: routes, ending, heap'')
                    end
            end
        end
  end.

(** [get_routing_attributes(obj, modify_doc=False, keys=None)], run to
    its end: what it yielded, how it ended, and the docstrings after. *)
Definition get_routing_attributes (attrs : gmap string value)
    (modify_doc : bool) (keys : option (list string)) (heap : Heap)
    : list (HTTPMethod * string * obj) * Ending * Heap :=
  let keys := match keys with None => dir attrs | Some keys => keys end in
  routing_loop attrs modify_doc keys heap.

(** [for method, path, func in routes: router.add(method, path, func)] *)
Fixpoint add_routes (routes : list (HTTPMethod * string * obj))
    : State Router.t unit :=
  match routes with
  | [] => mret tt
  | (method, path, func) :: routes' =>
      _ ← add method (PathStr path) func;
      add_routes routes'
  end.

(** What a builder of routers returns: the router, or the exception
    that left the loop. *)
Inductive built :=
  | Built (router : Router.t)
  | Failed (ending : Ending).

(** [routerify(obj)]: the router (a new object, [router]), and the
    attributes of [obj] afterwards. *)
Definition routerify (router : obj) (attrs : gmap string value) (heap : Heap)
    : built * gmap string value :=
  match get_routing_attributes attrs false None heap with
  | (routes, Exhausted, _) =>
      (Built (snd (add_routes routes (MiddlewareChain.mk []))),
       <["__growler_router" := Callable router]> attrs)
  | (_, ending, _) => (Failed ending, attrs)
  end.

(** The method [build_router(self)] that [RouterMeta.__new__] gives to
    a class: [classdict] is the ordered dictionary of the class body,
    of which the keys are read; inside the metaclass the private name
    [__growler_router] is [_RouterMeta__growler_router]. *)
Definition build_router (classdict : list string) (router : obj)
    (attrs : gmap string value) (heap : Heap)
    : built * gmap string value :=
  match get_routing_attributes attrs false (Some classdict) heap with
  | (routes, Exhausted, _) =>
      (Built (snd (add_routes routes (MiddlewareChain.mk []))),
       <["_RouterMeta__growler_router" := Callable router]> attrs)
  | (_, ending, _) => (Failed ending, attrs)
  end.

(** What one key contributes to [get_routing_attributes] when the
    docstrings are left alone. *)
Definition route_for (attrs : gmap string value) (heap : Heap)
    (attr : string) : option (HTTPMethod * string * obj) :=
  '(val, method_str) ← find_routeable attrs heap attr;
  text ← doc (heap (obj_id val));
  let '(path, _) := path_and_doc text in
  if py_bool path then
    method ← HTTPMethod_by_name method_str;
    Some (method, path, val)
  else None.

(** The place of a method in the alphabetical order of the verbs. *)
Definition alphabetical_rank (method : HTTPMethod) : nat :=
  match method with
  | ALL => 0
  | DELETE => 1
  | GET => 2
  | POST => 3
  | PUT => 4
  end.

(** Whether all characters of a text satisfy a test. *)
Fixpoint all_chars (test : ascii → bool) (s : string) : bool :=
  match s with
  | EmptyString => true
  | String c s' => test c && all_chars test s'
  end.

(** The entry [router.add(method, path, func)] appends for a route. *)
Definition route_entry (route : HTTPMethod * string * obj) : Entry :=
  let '(method, path, func) := route in mkEntry method (PathStr path) func.

(** The keys and docstrings on which the model decides: ASCII names,
    and for docstrings ASCII text. *)
Definition decided (attrs : gmap string value) (heap : Heap) (attr : string) : Prop :=
  Str.is_ascii attr = true
  ∧ ∀ val method_str,
      find_routeable attrs heap attr = Some (val, method_str) →
      ∃ text, __doc__ (heap (obj_id val)) = DocStr text
              ∧ Str.is_ascii text = true.

(** All characters. *)
Definition all_ascii : list ascii := map ascii_of_nat (seq 0 256).

End Discovery.

(** ** Sinatra paths, segment by segment

    A path as its author writes it: literal segments, and parameters
    [:name].  These definitions describe the paths and the requests
    about which the compiled patterns are questioned; the compilation
    itself is [Router.sinatra_path_to_regex]. *)
Module Sinatra.

(** The text without separators. *)
Definition free_of (sep : ascii) (s : string) : Prop :=
  Discovery.all_chars (fun c => negb (Ascii.eqb c sep)) s = true.

Inductive segment :=
  | Plain (text : string)
  | Param (name : string).

(** The segment as it is written in the path. *)
Definition source (seg : segment) : string :=
  match seg with
  | Plain text => text
  | Param name => String ":" name
  end.

Definition path_of (segs : list segment) : string :=
  Str.join "/" (map source segs).

(** A character that stands for itself in a pattern and does not end a
    segment. *)
Definition literal_char (c : ascii) : bool :=
  Str.is_ascii_char c && negb (Re.is_meta c) && negb (Ascii.eqb c "/").

(** A literal segment is made of such characters and does not begin
    like a parameter; the name of a parameter is an identifier. *)
Definition well_formed (seg : segment) : bool :=
  match seg with
  | Plain text =>
      Discovery.all_chars literal_char text
      && negb (Router.sinatra_param_match text)
  | Param name => Str.isidentifier name
  end.

Definition names (segs : list segment) : list string :=
  omap (fun seg => match seg with Param name => Some name | Plain _ => None end)
    segs.

(** The requested path in which each parameter has a value. *)
Definition fill (env : string → string) (seg : segment) : string :=
  match seg with
  | Plain text => text
  | Param name => env name
  end.

Definition request_of (env : string → string) (segs : list segment) : string :=
  Str.join "/" (map (fill env) segs).

(** The source and the program of the pattern. *)
Definition regex_source (seg : segment) : string :=
  match seg with
  | Plain text => text
  | Param name => "(?P<" ++ name ++ ">\w+)"
  end.

Definition literal (text : string) : list Re.item :=
  map Re.Lit (String.list_ascii_of_string text).

Definition items (seg : segment) : list Re.item :=
  match seg with
  | Plain text => literal text
  | Param name => [Re.NamedWord name]
  end.

Fixpoint program (segs : list segment) : list Re.item :=
  match segs with
  | [] => []
  | [seg] => items seg
  | seg :: segs' => items seg ++ Re.Lit "/" :: program segs'
  end.

Definition pattern_of (segs : list segment) : Re.Pattern :=
  Re.mkPattern (Str.join "/" (map regex_source segs)) (program segs).

(** What may follow the part of a request that a pattern has matched,
    for a parameter at the end to hold all of its segment. *)
Definition ends_word (rest : string) : bool :=
  match rest with
  | EmptyString => true
  | String c _ => negb (Str.is_word c)
  end.

End Sinatra.

(** ** Errors one after the other

    The protocol object lives as long as its connection, and
    [handle_error] is called for each error raised while data is
    handled; an exception leaving it ends the sequence. *)
Module Connection.
Import GrowlerHTTPProtocol.

(** The clock moves between the errors: each comes with the time at
    which it is handled. *)
Definition at_time (now : string) (w : World) : World :=
  mkWorld (transport w) (stderr w) now.

(** The errors of a connection, handled one after the other until an
    exception leaves [handle_error]. *)
Fixpoint handle_errors (errors : list (string * Error))
    : State World Completion :=
  fun w =>
  match errors with
  | [] => (Returned, w)
  | (now, error) :: errors' =>
      match handle_error error (at_time now w) with
      | (Returned, w') => handle_errors errors' w'
      | (Raised e, w') => (Raised e, w')
      end
  end.

(** Neither the text of the error nor the time of its handling holds a
    surrogate. *)
Definition encodable (handled : string * Error) : bool :=
  negb (has_surrogate handled.1) && negb (has_surrogate (error_text handled.2)).

(** The code, message and detail of the response to an error. *)
Definition answer (error : Error) : Z * string * string :=
  match error with
  | HTTPError code msg => (code, msg, "")
  | OtherError text _ => (500%Z, "Server Error", text)
  end.

(** What [handle_error] prints for an error. *)
Definition trace (error : Error) : string :=
  match error with
  | HTTPError _ _ => ""
  | OtherError _ tb =>
      "Unexpected Server Error" ++ String LF "" ++ String.concat "" tb
  end.

End Connection.

(** ** Sequences of registrations

    The ways in which the methods of [Router] are called to register a
    handler, and what a sequence of such calls does to a router. *)
Module Registration.
Import MiddlewareChain.

Inductive call :=
  | Verb (method : HTTPMethod) (path : PathArg) (handler : obj)
  | Decorated (method : HTTPMethod) (path : PathArg) (func : obj)
  | Use (middleware : obj) (path : option PathArg)
  | AddRouter (path : PathArg) (router : obj).

(** The method of [Router] for a mask. *)
Definition verb (method : HTTPMethod)
    : PathArg → option obj → State Router.t Router.add_route_result :=
  match method with
  | ALL => Router.all
  | GET => Router.get
  | POST => Router.post
  | PUT => Router.put
  | DELETE => Router.delete
  end.

Section Calls.
(** The constant [MiddlewareChain.ROOT_PATTERN]. *)
Variable ROOT_PATTERN : PathArg.

(** [router.get(path, handler)], [router.get(path)(func)],
    [router.use(middleware, path)] and [router.add_router(path, router)]. *)
Definition perform (c : call) : State Router.t unit :=
  match c with
  | Verb method path handler =>
      _ ← verb method path (Some handler);
      mret tt
  | Decorated method path func =>
      decorator ← verb method path None;
      match decorator with
      | Router.Decorator lambda => _ ← lambda func; mret tt
      | Router.Self => mret tt
      end
  | Use middleware path => Router.use ROOT_PATTERN middleware path
  | AddRouter path router => Router.add_router path router
  end.

Fixpoint perform_all (calls : list call) : State Router.t unit :=
  match calls with
  | [] => mret tt
  | c :: calls' => _ ← perform c; perform_all calls'
  end.

(** What a call asks to be registered. *)
Definition asked (c : call) : HTTPMethod * PathArg * obj :=
  match c with
  | Verb method path handler => (method, path, handler)
  | Decorated method path func => (method, path, func)
  | Use middleware path => (ALL, default ROOT_PATTERN path, middleware)
  | AddRouter path router => (ALL, path, router)
  end.
End Calls.

End Registration.

(** An object to scan: three views, a helper without docstring, a
    counter that is not callable, and a view whose docstring is blank. *)
Module Pages.
Import Discovery.

Definition index : obj := mkObj FunctionType 10.
Definition form : obj := mkObj FunctionType 11.
Definition log : obj := mkObj FunctionType 12.
Definition helper : obj := mkObj FunctionType 13.
Definition blank : obj := mkObj FunctionType 14.

Definition attrs : gmap string value :=
  <["get_index" := Callable index]>
  (<["post_form" := Callable form]>
   (<["all_log" := Callable log]>
    (<["get_helper" := Callable helper]>
     (<["get_count" := NotCallable]>
      (<["put_blank" := Callable blank]>
       (<["render" := Callable index]> ∅)))))).

Definition heap : Heap :=
  fun i =>
    if decide (i = 10) then mkCell (DocStr "/index  The index page") true
    else if decide (i = 11) then mkCell (DocStr "  /form") false
    else if decide (i = 12) then mkCell (DocStr "/log Log every request") true
    else if decide (i = 14) then mkCell (DocStr "   ") true
    else mkCell DocNone true.

(** The class body, in the order of its definitions. *)
Definition classdict : list string :=
  ["render"; "post_form"; "get_index"; "get_helper"; "get_count";
   "all_log"; "put_blank"].

Definition router : obj := mkObj RouterType 20.
Definition router' : obj := mkObj RouterType 21.

(** The routers built for it: in the order of the class body, and in
    the order of the names. *)
Definition in_class_order : Router.t :=
  MiddlewareChain.mk
    [ MiddlewareChain.mkEntry POST (PathStr "/form") form;
      MiddlewareChain.mkEntry GET (PathStr "/index") index;
      MiddlewareChain.mkEntry ALL (PathStr "/log") log ].

Definition in_name_order : Router.t :=
  MiddlewareChain.mk
    [ MiddlewareChain.mkEntry ALL (PathStr "/log") log;
      MiddlewareChain.mkEntry GET (PathStr "/index") index;
      MiddlewareChain.mkEntry POST (PathStr "/form") form ].

End Pages.

(** * Properties *)

(** ** The router's per-entry decision *)
Section ShouldSkip.
Import MiddlewareChain.

(** Truthiness of what the chain passes for [matching] and [rest]. *)
Lemma py_bool_matching (matching : option Re.Match) :
  py_bool matching = false ↔ matching = None.
Proof. destruct matching; split; done. Qed.

Lemma py_bool_rest (rest : string) : py_bool rest = true ↔ rest ≠ "".
Proof. destruct rest; split; done. Qed.

(** The decision looks at [matching] and [rest] only. *)
Lemma should_skip_middleware_iff (mw : Entry)
    (matching : option Re.Match) (rest : string) :
  Router.should_skip_middleware mw matching rest = true
  ↔ matching = None ∨ rest ≠ "".
Proof.
  unfold Router.should_skip_middleware.
  rewrite orb_true_iff, negb_true_iff, py_bool_matching, py_bool_rest.
  reflexivity.
Qed.

Lemma should_skip_middleware_any_handler (mw mw' : Entry)
    (matching : option Re.Match) (rest : string) :
  Router.should_skip_middleware mw matching rest
  = Router.should_skip_middleware mw' matching rest.
Proof. reflexivity. Qed.
End ShouldSkip.

Section RouterMatching.
Import MiddlewareChain Examples.

(** C1: the decision of the router skips a sub-router whose match
    leaves a residual, which the docstrings of [Router] and of
    [add_router] say is handed to it.  A sub-router mounted at [/blog]
    and asked for [/blog/list] matches the prefix and leaves the
    residual [/list]; [should_skip_middleware] answers [True], and
    matching the path on the root router yields nothing, for the
    literal and for the compiled mount path alike. *)
Theorem subrouter_with_residual_is_skipped :
  is_router (func blog_entry) = true
  ∧ path_split blog_entry "/blog/list" = Split (Some (literal_match 5)) "/list"
  ∧ Router.should_skip_middleware blog_entry (Some (literal_match 5)) "/list" = true
  ∧ Router.__call__ root GET "/blog/list" = Some []
  ∧ path_split blog_entry_compiled "/blog/list"
    = Split (Some (literal_match 5)) "/list"
  ∧ Router.__call__ root_compiled GET "/blog/list" = Some [].
Proof. repeat split; vm_compute; reflexivity. Qed.

(** C4: for an entry with a leaf handler and any path, the decision
    excludes the entry exactly when the pattern did not match at all
    or the match leaves a non-empty residual; the handler registered
    at [/home] is skipped for [/home/extra] and found for [/home] with
    an empty residual. *)
Theorem leaf_skip_decision (mw : Entry) (request_path : string)
    (matching : option Re.Match) (rest : string) :
  is_leaf (func mw) = true →
  path_split mw request_path = Split matching rest →
  (Router.should_skip_middleware mw matching rest = true
   ↔ matching = None ∨ rest ≠ "")
  ∧ path_split home_entry "/home/extra" = Split (Some (literal_match 5)) "/extra"
  ∧ Router.__call__ site GET "/home/extra" = Some []
  ∧ path_split home_entry "/home" = Split (Some (literal_match 5)) ""
  ∧ Router.__call__ site GET "/home" = Some [mkFound page ∅ ""].
Proof.
  intros _ _. split; [apply should_skip_middleware_iff |].
  repeat split; vm_compute; reflexivity.
Qed.

Lemma leaf_skip_decision_witness :
  is_leaf (func home_entry) = true
  ∧ path_split home_entry "/home/extra" = Split (Some (literal_match 5)) "/extra"
  ∧ (Router.should_skip_middleware home_entry (Some (literal_match 5)) "/extra" = true
     ↔ Some (literal_match 5) = None ∨ "/extra" ≠ "").
Proof.
  split; [reflexivity |]. split; [vm_compute; reflexivity |].
  apply (leaf_skip_decision home_entry "/home/extra" (Some (literal_match 5)) "/extra");
    [reflexivity | vm_compute; reflexivity].
Defined.

(** C9: [match_routes(req)] is the chain's match operation applied to
    the method and the path of the request. *)
Theorem match_routes_is_call (self : Router.t) (req : HTTPRequest.t) :
  Router.match_routes self req
  = MiddlewareChain.call Router.should_skip_middleware self
      (HTTPRequest.method req) (HTTPRequest.path req)
  ∧ Router.match_routes self req
    = Router.__call__ self (HTTPRequest.method req) (HTTPRequest.path req)
  ∧ (∀ headers body,
       Router.match_routes self
         (HTTPRequest.mk (HTTPRequest.method req) (HTTPRequest.path req) headers body)
       = Router.match_routes self req).
Proof.
  split; [reflexivity |]. split; [reflexivity |].
  intros headers body. unfold Router.match_routes. reflexivity.
Qed.

(** Nothing else of the request is read. *)
Lemma match_routes_reads_method_and_path (self : Router.t)
    (req req' : HTTPRequest.t) :
  HTTPRequest.method req = HTTPRequest.method req' →
  HTTPRequest.path req = HTTPRequest.path req' →
  Router.match_routes self req = Router.match_routes self req'.
Proof. unfold Router.match_routes. intros -> ->. reflexivity. Qed.
End RouterMatching.

(** ** Registration *)
Section Registration.
Import MiddlewareChain Examples.

Lemma add_appends (method : HTTPMethod) (path : PathArg) (func : obj)
    (self : Router.t) :
  add method path func self = (tt, mk (mw_list self ++ [mkEntry method path func])).
Proof. reflexivity. Qed.

(** Both ways of calling [_add_route]. *)
Lemma add_route_with_handler (method : HTTPMethod) (path : PathArg)
    (handler : obj) (self : Router.t) :
  Router._add_route method path (Some handler) self
  = (Router.Self, mk (mw_list self ++ [mkEntry method path handler])).
Proof. reflexivity. Qed.

Lemma add_route_without_handler (method : HTTPMethod) (path : PathArg)
    (self : Router.t) :
  ∃ lambda,
    Router._add_route method path None self = (Router.Decorator lambda, self)
    ∧ ∀ (func : obj) (self' : Router.t),
        lambda func self'
        = (func, mk (mw_list self' ++ [mkEntry method path func])).
Proof. eexists. split; [reflexivity |]. intros func self'. reflexivity. Qed.

(** C7: each of [all], [get], [post], [put] and [delete], called
    without a handler, leaves the router as it is and returns a
    decorator, which registers the function it is applied to under
    the method's mask and the path and returns that function; called
    with a handler it registers the handler. *)
Theorem verbs_register_or_decorate :
  Forall (fun '(verb, method) =>
    ∀ (path : PathArg) (self : Router.t),
      (∃ lambda,
         verb path None self = (Router.Decorator lambda, self)
         ∧ ∀ (func : obj) (self' : Router.t),
             lambda func self'
             = (func, mk (mw_list self' ++ [mkEntry method path func])))
      ∧ (∀ handler : obj,
           verb path (Some handler) self
           = (Router.Self, mk (mw_list self ++ [mkEntry method path handler]))))
    verbs.
Proof.
  unfold verbs. repeat constructor;
    first [ apply add_route_without_handler
          | intros handler; apply add_route_with_handler ].
Qed.

(** The decorator registers once per application, in order. *)
Example decorator_twice :
  ∃ lambda,
    Router.get (PathStr "/home") None empty_router
    = (Router.Decorator lambda, empty_router)
    ∧ (_ ← lambda page; lambda blog_router) empty_router
      = (blog_router,
         mk [mkEntry GET (PathStr "/home") page;
             mkEntry GET (PathStr "/home") blog_router]).
Proof. eexists. split; reflexivity. Qed.
End Registration.

(** ** Sub-router discovery *)
Section Subrouters.
Import MiddlewareChain Examples.

Lemma filter_sublist_of {A} (f : A → bool) (l : list A) :
  List.filter f l `sublist_of` l.
Proof.
  induction l as [| x l IH]; simpl; [constructor |].
  destruct (f x); [by apply sublist_skip | by apply sublist_cons].
Qed.

Lemma sublist_into_filter {A} (f : A → bool) (k l : list A) :
  k `sublist_of` l → Forall (fun x => f x = true) k →
  k `sublist_of` List.filter f l.
Proof.
  induction 1 as [| x k l _ IH | x k l _ IH]; intros Hk; simpl.
  - constructor.
  - inversion Hk as [| ? ? Hx Hk']; subst. rewrite Hx.
    apply sublist_skip. by apply IH.
  - destruct (f x); [apply sublist_cons |]; by apply IH.
Qed.

Lemma filter_all {A} (f : A → bool) (l : list A) :
  Forall (fun x => f x = true) (List.filter f l).
Proof.
  induction l as [| x l IH]; simpl; [constructor |].
  destruct (f x) eqn:Hx; [constructor |]; done.
Qed.

(** C8, as the code has it: an entry whose handler is a chain but not
    a [Router] is an entry with a chain instance as handler, and
    [subrouters] does not yield it. *)
Lemma subrouters_omits_plain_chain :
  static_entry ∈ mw_list mixed
  ∧ is_chain (func static_entry) = true
  ∧ is_router (func static_entry) = false
  ∧ static_entry ∉ Router.subrouters mixed.
Proof.
  split; [| split; [reflexivity | split; [reflexivity |]]].
  - unfold mixed, static_entry; simpl. set_solver.
  - intros Hin. apply list_elem_of_In, filter_In in Hin.
    destruct Hin as [_ Hrouter]. discriminate Hrouter.
Qed.

(** C8 (amended): [subrouters] keeps the registration order and yields
    entries of the router only, each with a [Router] instance as
    handler; and it yields every such entry: any selection of such
    entries taken in order from [mw_list] is found, in order, in what it
    yields.  A handler that is a chain without being a [Router] does not
    count. *)
Theorem subrouters_exact (self : Router.t) :
  Router.subrouters self `sublist_of` mw_list self
  ∧ Forall (fun mw => is_router (func mw) = true) (Router.subrouters self)
  ∧ (∀ selection : list Entry,
       selection `sublist_of` mw_list self →
       Forall (fun mw => is_router (func mw) = true) selection →
       selection `sublist_of` Router.subrouters self)
  ∧ (∀ mw : Entry,
       mw ∈ Router.subrouters self
       ↔ mw ∈ mw_list self ∧ is_router (func mw) = true).
Proof.
  unfold Router.subrouters. split; [apply filter_sublist_of |].
  split; [apply filter_all |].
  split; [intros selection; apply sublist_into_filter |].
  intros mw. rewrite !list_elem_of_In, filter_In. reflexivity.
Qed.

Example subrouters_mixed :
  Router.subrouters mixed
  = [ mkEntry ALL (PathStr "/blog") blog_router;
      mkEntry POST (PathStr "/blog2") blog_router ].
Proof. reflexivity. Qed.
End Subrouters.

(** ** Path compilation *)
Section PathCompilation.
Import Examples.

(** The group written for a parameter segment. *)
Lemma format_group (name : string) :
  Format.format "(?P<{}>\w+)" [PyStr name] ∅ = Some ("(?P<" ++ name ++ ">\w+)").
Proof. reflexivity. Qed.

Lemma segment_regex_total (segment : string) :
  Router.segment_regex segment
  = Some (if Router.sinatra_param_match segment
          then "(?P<" ++ Str.tail segment ++ ">\w+)" else segment).
Proof.
  unfold Router.segment_regex.
  destruct (Router.sinatra_param_match segment); [apply format_group | done].
Qed.

(** A compiled pattern is handed back as it is. *)
Lemma sinatra_path_to_regex_compiled (p : Re.Pattern) :
  Router.sinatra_path_to_regex (PathRegex p) = Re.Compiled p.
Proof. reflexivity. Qed.

(** [/users/:id] compiles to a pattern that captures [id = "42"] from
    [/users/42]. *)
Lemma sinatra_path_to_regex_users :
  Router.sinatra_path_to_regex (PathStr "/users/:id") = Re.Compiled users_pattern
  ∧ ∃ m, Re.match_ users_pattern "/users/42" = Re.Matched m
         ∧ Re.groupdict m !! "id" = Some "42"
         ∧ Re.m_end m = 9.
Proof. split; [vm_compute; reflexivity |]. eexists. repeat split. Qed.

(** The segments the code rewrites include those the specification
    rewrites. *)
Lemma param_segment_is_matched (segment : string) :
  SpecCompile.is_param_segment segment = true →
  Router.sinatra_param_match segment = true.
Proof.
  destruct segment as [| a [| c name]]; try done. simpl.
  destruct (Ascii.ascii_dec a ":") as [-> | Hne]; simpl.
  - by intros [? ?]%andb_true_iff.
  - destruct a as [[] [] [] [] [] [] [] []]; done.
Qed.

(** On a path whose colon segments are whole names, the code compiles
    what the specification describes. *)
Lemma sinatra_path_to_regex_whole_names (s : string) :
  Forall (fun segment =>
            Router.sinatra_param_match segment = true →
            SpecCompile.is_param_segment segment = true)
         (Str.split "/" s) →
  Router.sinatra_path_to_regex (PathStr s) = SpecCompile.compile (PathStr s).
Proof.
  intros Hwhole. unfold Router.sinatra_path_to_regex, SpecCompile.compile.
  destruct (Str.is_ascii s); [| done].
  assert (mapM Router.segment_regex (Str.split "/" s)
          = Some (map SpecCompile.segment_regex (Str.split "/" s))) as ->; [| done].
  apply mapM_Some. induction Hwhole as [| segment segments Hseg _ IH]; simpl.
  - constructor.
  - constructor; [| exact IH].
    rewrite segment_regex_total. unfold SpecCompile.segment_regex. f_equal.
    destruct (Router.sinatra_param_match segment) eqn:Hm.
    + by rewrite Hseg.
    + destruct (SpecCompile.is_param_segment segment) eqn:Hp; [| done].
      apply param_segment_is_matched in Hp. congruence.
Qed.

(** C6, where the code departs from it: the segment [:id-x] begins
    with a parameter but is not one.  The specification leaves it as
    it is; the code takes the match of its beginning for a match of
    the segment and writes a group named [id-x], which [re.compile]
    refuses. *)
Theorem sinatra_path_to_regex_partial_segment :
  SpecCompile.is_param_segment ":id-x" = false
  ∧ Router.sinatra_param_match ":id-x" = true
  ∧ Router.segment_regex ":id-x" = Some "(?P<id-x>\w+)"
  ∧ Router.sinatra_path_to_regex (PathStr "/users/:id-x")
    = Re.Raises (Re.BadGroupName "id-x")
  ∧ SpecCompile.compile (PathStr "/users/:id-x")
    = Re.compile "/users/:id-x"
  ∧ (∃ p, Re.compile "/users/:id-x" = Re.Compiled p)
  ∧ Router.sinatra_path_to_regex (PathStr "/users/:id.json")
    = Re.Raises (Re.BadGroupName "id.json").
Proof. repeat split; try (vm_compute; reflexivity). eexists. vm_compute. reflexivity. Qed.
End PathCompilation.

(** ** The error response *)
Section ErrorResponse.
Import GrowlerHTTPProtocol Examples.

Lemma str_app_nil_r (a : string) : a ++ "" = a.
Proof.
  induction a as [| c a IH]; [done |].
  change (String c (a ++ "") = String c a). by f_equal.
Qed.

Lemma str_app_assoc (a b c : string) : (a ++ b) ++ c = a ++ (b ++ c).
Proof.
  induction a as [| x a IH]; [done |].
  change (String x ((a ++ b) ++ c) = String x (a ++ (b ++ c))). by f_equal.
Qed.

(** Formatting a literal template: parse it, look the fields up,
    render. *)
Ltac format_template template :=
  unfold Format.format;
  let pieces := eval vm_compute in (Format.parse Format.Outside template) in
  change (Format.parse Format.Outside template) with pieces;
  cbn [mbind option_bind Format.render fmap option_fmap option_map];
  repeat first [ rewrite lookup_insert_eq | rewrite lookup_insert_ne by done ];
  cbn [mbind option_bind Format.render fmap option_fmap option_map].

(** The two formatting steps, for any code, message and detail. *)
Lemma format_err_str (code : Z) (message info : string) :
  Format.format err_str_template []
    (<["code" := PyInt code]>
     (<["message" := PyStr message]>
      (<["info" := PyStr info]> ∅)))
  = Some (SpecWire.body code message info).
Proof. format_template err_str_template. reflexivity. Qed.

Lemma format_response (code : Z) (message date contents : string) (len : Z) :
  Format.format response_template []
    (<["code" := PyInt code]>
     (<["msg" := PyStr message]>
      (<["date" := PyStr date]>
       (<["length" := PyInt len]>
        (<["contents" := PyStr contents]> ∅)))))
  = Some ("HTTP/1.1 " ++ str_of_int code ++ " " ++ message ++ CRLF
          ++ "Content-Type: text/html; charset=UTF-8" ++ CRLF
          ++ "Content-Length: " ++ str_of_int len ++ CRLF
          ++ "Date: " ++ date ++ CRLF
          ++ CRLF
          ++ contents).
Proof.
  format_template response_template. cbn [py_str].
  rewrite str_app_nil_r. reflexivity.
Qed.

(** Surrogates and concatenation: ASCII text holds none, and none
    arises where a text meets ASCII text. *)
Lemma has_surrogate_cons_ascii (c : ascii) (s : string) :
  Str.is_ascii_char c = true → has_surrogate (String c s) = has_surrogate s.
Proof.
  unfold Str.is_ascii_char. intros Hc%N.ltb_lt. cbn [has_surrogate].
  destruct s as [| d s]; [done |].
  replace (N_of_ascii c =? 237)%N with false; [done |].
  symmetry. apply N.eqb_neq. lia.
Qed.

Lemma has_surrogate_app_ascii (l y : string) :
  Str.is_ascii l = true → has_surrogate (l ++ y) = has_surrogate y.
Proof.
  induction l as [| c l IH]; [done |].
  cbn [Str.is_ascii]. intros [Hc Hl]%andb_prop.
  change (String c l ++ y) with (String c (l ++ y)).
  rewrite has_surrogate_cons_ascii by done. auto.
Qed.

Lemma has_surrogate_app_cons (x : string) (c : ascii) (z : string) :
  Str.is_ascii_char c = true →
  has_surrogate (x ++ String c z) = has_surrogate x || has_surrogate (String c z).
Proof.
  intros Hc. induction x as [| a x IH]; [done |].
  change (String a x ++ String c z) with (String a (x ++ String c z)).
  change (has_surrogate (String a (x ++ String c z)))
    with (match x ++ String c z with
          | EmptyString => false
          | String d _ => (N_of_ascii a =? 237)%N && (160 <=? N_of_ascii d)%N
          end || has_surrogate (x ++ String c z)).
  rewrite IH. destruct x as [| d x].
  - change ("" ++ String c z) with (String c z). cbv beta iota.
    replace (160 <=? N_of_ascii c)%N with false; [by rewrite andb_false_r |].
    symmetry. apply N.leb_gt. unfold Str.is_ascii_char in Hc.
    apply N.ltb_lt in Hc. lia.
  - change (String d x ++ String c z) with (String d (x ++ String c z)).
    cbv beta iota. by rewrite orb_assoc.
Qed.

Lemma has_surrogate_sep (x l y : string) :
  Str.is_ascii l = true → l ≠ "" →
  has_surrogate (x ++ l ++ y) = has_surrogate x || has_surrogate y.
Proof.
  intros Hl Hne. destruct l as [| c l]; [done |].
  change (String c l ++ y) with (String c (l ++ y)).
  cbn [Str.is_ascii] in Hl. apply andb_prop in Hl as [Hc Hl].
  rewrite has_surrogate_app_cons, has_surrogate_cons_ascii by done.
  by rewrite has_surrogate_app_ascii.
Qed.

Lemma is_ascii_string_of_uint (d : Decimal.uint) :
  Str.is_ascii (NilEmpty.string_of_uint d) = true.
Proof. induction d; simpl; auto. Qed.

Lemma is_ascii_str_of_int (n : Z) : Str.is_ascii (str_of_int n) = true.
Proof.
  unfold str_of_int, NilZero.string_of_int, NilZero.string_of_uint.
  destruct (Z.to_int n) as [d | d].
  - destruct d; first [ reflexivity | apply is_ascii_string_of_uint ].
  - change (Str.is_ascii
              (String "-" match d with
                          | Decimal.Nil => "0"
                          | _ => NilEmpty.string_of_uint d
                          end) = true).
    destruct d; first [ reflexivity | apply (is_ascii_string_of_uint (Decimal.D0 d))
      | apply (is_ascii_string_of_uint (Decimal.D1 d))
      | apply (is_ascii_string_of_uint (Decimal.D2 d))
      | apply (is_ascii_string_of_uint (Decimal.D3 d))
      | apply (is_ascii_string_of_uint (Decimal.D4 d))
      | apply (is_ascii_string_of_uint (Decimal.D5 d))
      | apply (is_ascii_string_of_uint (Decimal.D6 d))
      | apply (is_ascii_string_of_uint (Decimal.D7 d))
      | apply (is_ascii_string_of_uint (Decimal.D8 d))
      | apply (is_ascii_string_of_uint (Decimal.D9 d)) ].
Qed.

(** The body and the response hold a surrogate when the message, the
    detail or the date does. *)
Lemma has_surrogate_body (code : Z) (message detail : string) :
  has_surrogate (SpecWire.body code message detail)
  = has_surrogate message || has_surrogate detail.
Proof.
  unfold SpecWire.body.
  rewrite (has_surrogate_app_ascii "<html><head></head><body><h1>HTTP Error : ")
    by reflexivity.
  rewrite (has_surrogate_app_ascii (str_of_int code)) by apply is_ascii_str_of_int.
  rewrite (has_surrogate_app_ascii " ") by reflexivity.
  rewrite (has_surrogate_sep message "</h1><p>") by done.
  rewrite (has_surrogate_sep detail "</p></body></html>") by done.
  by rewrite orb_false_r.
Qed.

Lemma has_surrogate_response (code : Z) (message detail date : string) :
  has_surrogate (SpecWire.response code message detail date)
  = has_surrogate message || has_surrogate detail || has_surrogate date.
Proof.
  unfold SpecWire.response.
  rewrite (has_surrogate_app_ascii "HTTP/1.1 ") by reflexivity.
  rewrite (has_surrogate_app_ascii (str_of_int code)) by apply is_ascii_str_of_int.
  rewrite (has_surrogate_app_ascii " ") by reflexivity.
  rewrite (has_surrogate_sep message CRLF) by done.
  rewrite (has_surrogate_app_ascii "Content-Type: text/html; charset=UTF-8")
    by reflexivity.
  rewrite (has_surrogate_app_ascii CRLF) by reflexivity.
  rewrite (has_surrogate_app_ascii "Content-Length: ") by reflexivity.
  rewrite (has_surrogate_app_ascii (str_of_int _)) by apply is_ascii_str_of_int.
  rewrite (has_surrogate_app_ascii CRLF) by reflexivity.
  rewrite (has_surrogate_app_ascii "Date: ") by reflexivity.
  rewrite (has_surrogate_sep date CRLF) by done.
  rewrite (has_surrogate_app_ascii CRLF) by reflexivity.
  rewrite has_surrogate_body.
  destruct (has_surrogate message), (has_surrogate detail), (has_surrogate date);
    reflexivity.
Qed.

Lemma encode_body (code : Z) (message detail : string) :
  has_surrogate message = false → has_surrogate detail = false →
  encode (SpecWire.body code message detail)
  = Some (bytes_of (SpecWire.body code message detail)).
Proof. intros Hm Hd. unfold encode. by rewrite has_surrogate_body, Hm, Hd. Qed.

Lemma encode_response (code : Z) (message detail date : string) :
  has_surrogate message = false → has_surrogate detail = false →
  has_surrogate date = false →
  encode (SpecWire.response code message detail date)
  = Some (bytes_of (SpecWire.response code message detail date)).
Proof.
  intros Hm Hd Hdate. unfold encode.
  by rewrite has_surrogate_response, Hm, Hd, Hdate.
Qed.

(** What [handle_error] does, by kind of error, when the response can
    be encoded. *)
Lemma handle_error_http (code : Z) (msg : string) (w : World) :
  has_surrogate msg = false →
  has_surrogate (current_time w) = false →
  handle_error (HTTPError code msg) w
  = (Returned,
     transport_write
       (bytes_of (SpecWire.response code msg "" (current_time w))) w).
Proof.
  intros Hmsg Hdate. unfold handle_error.
  rewrite format_err_str, encode_body by done.
  rewrite format_response.
  change (encode _) with (encode (SpecWire.response code msg "" (current_time w))).
  by rewrite encode_response.
Qed.

Lemma handle_error_other (text : string) (tb : list string) (w : World) :
  has_surrogate text = false →
  has_surrogate (current_time w) = false →
  handle_error (OtherError text tb) w
  = (Returned,
     transport_write
       (bytes_of (SpecWire.response 500 "Server Error" text (current_time w)))
       (print_tb tb (print_stderr "Unexpected Server Error" w))).
Proof.
  intros Htext Hdate. unfold handle_error.
  rewrite format_err_str, encode_body by done.
  rewrite format_response.
  change (encode _)
    with (encode (SpecWire.response 500 "Server Error" text (current_time w))).
  by rewrite encode_response.
Qed.









Example handle_error_forbidden :
  (fun '(completion, w) =>
     (completion, map String.string_of_list_byte (transport w)))
    (handle_error (HTTPError 403 "Forbidden") quiet_world)
  = (Returned,
     [ "HTTP/1.1 403 Forbidden" ++ CRLF
       ++ "Content-Type: text/html; charset=UTF-8" ++ CRLF
       ++ "Content-Length: 82" ++ CRLF
       ++ "Date: Tue, 03 Nov 2026 22:08:00 GMT" ++ CRLF
       ++ CRLF
       ++ "<html><head></head><body><h1>HTTP Error : 403 Forbidden</h1><p></p></body></html>"
       ++ String LF "" ]).
Proof. vm_compute. reflexivity. Qed.
End ErrorResponse.

(** ** The body storage pair *)
Section BodyStorage.
Import GrowlerHTTPProtocol Examples.

(** The pair as it is returned: the generator waits at its first
    [yield], the future is pending. *)
Lemma body_storage_pair_primed :
  body_storage_pair = mkPair Pending AtFirstYield.
Proof. reflexivity. Qed.

(** A generator that has delivered only ever raises [StopIteration],
    and the future keeps its result. *)
Lemma drive_after_delivery (values : list pydata) (f : Future) (fr : Frame) :
  fr = AtSecondYield ∨ fr = Closed →
  drive values (mkPair f fr)
  = (replicate (length values) StopIteration,
     mkPair f (match values with [] => fr | _ => Closed end)).
Proof.
  revert fr. induction values as [| v vs IH]; intros fr Hfr; [done |].
  assert (send v (mkPair f fr) = (StopIteration, mkPair f Closed)) as Hsend
    by (destruct Hfr as [-> | ->]; reflexivity).
  cbn [drive]. rewrite Hsend, (IH Closed) by (by right).
  simpl. by destruct vs.
Qed.

(** The future changes at one place only, and only from [Pending]. *)
Lemma send_future (v : pydata) (p : Pair) :
  future (snd (send v p)) = future p
  ∨ (future p = Pending ∧ sender p = AtFirstYield
     ∧ future (snd (send v p)) = Finished v).
Proof.
  destruct p as [f fr]. unfold send; simpl.
  destruct fr; simpl; auto.
  - destruct v; simpl; auto.
  - destruct f; simpl; auto.
Qed.

(** C3, as the code has it: a caller that advances the returned
    handle once and then sends [b"test data"] resolves the future with
    [None] at the first advance, and the send of the data raises
    [StopIteration]: the future does not get the data. *)
Lemma advance_then_deliver_resolves_none :
  drive [PyNone; test_data] body_storage_pair
  = ([Yields PyNone; StopIteration], mkPair (Finished PyNone) Closed)
  ∧ result (future (snd (next body_storage_pair))) = Some PyNone
  ∧ result (future (snd (drive [PyNone; test_data] body_storage_pair)))
    ≠ Some test_data.
Proof. repeat split. discriminate. Qed.

(** C3 (amended): of the two advances of the generator the first is
    made by [body_storage_pair] itself, which returns the handle
    waiting for the value with the future pending.  The first advance
    of the returned handle delivers its value and resolves the future
    to exactly that value; every advance after it raises
    [StopIteration] and leaves the result of the future as it is, so
    the future is resolved once. *)
Theorem body_storage_pair_advances (x : pydata) (more : list pydata) :
  next (mkPair Pending NotStarted) = (Yields PyNone, body_storage_pair)
  ∧ future body_storage_pair = Pending
  ∧ sender body_storage_pair = AtFirstYield
  ∧ (∃ p, send x body_storage_pair = (Yields PyNone, p)
          ∧ result (future p) = Some x
          ∧ ∃ p', drive more p = (replicate (length more) StopIteration, p')
                  ∧ result (future p') = Some x).
Proof.
  repeat split. eexists. split; [reflexivity |]. split; [reflexivity |].
  eexists. split; [apply drive_after_delivery; by left | reflexivity].
Qed.

(** C10: the pair is returned with the generator already advanced to
    its first [yield]; one [send] of a value by the caller resolves
    the future to that value. *)
Theorem body_storage_pair_first_send (x : pydata) :
  body_storage_pair = snd (next (mkPair Pending NotStarted))
  ∧ sender body_storage_pair = AtFirstYield
  ∧ future body_storage_pair = Pending
  ∧ fst (send x body_storage_pair) = Yields PyNone
  ∧ result (future (snd (send x body_storage_pair))) = Some x
  ∧ fst (drive [x] body_storage_pair) = [Yields PyNone]
  ∧ result (future (snd (drive [x] body_storage_pair))) = Some x.
Proof. repeat split. Qed.

(** The test of the repository: [wtr.send(data)], then [await rdr]. *)
Example test_body_storage_pair :
  let '(_, p) := send test_data body_storage_pair in
  result (future p) = Some test_data.
Proof. reflexivity. Qed.
End BodyStorage.

(** ** Route discovery *)
Section RouteDiscovery.
Import MiddlewareChain Discovery.

Lemma all_ascii_complete (P : ascii → bool) :
  forallb P all_ascii = true → ∀ c, P c = true.
Proof.
  intros Hall c. rewrite forallb_forall in Hall. apply Hall.
  rewrite <- (ascii_nat_embedding c). unfold all_ascii.
  apply in_map, in_seq. pose proof (nat_ascii_bounded c). lia.
Qed.

(** Letters that agree without their case have the same upper case,
    and conversely. *)
Lemma case_table :
  forallb (fun a =>
    forallb (fun b =>
      Bool.eqb (Ascii.eqb (lower_char a) (lower_char b))
               (Ascii.eqb (upper_char a) (upper_char b)))
      all_ascii) all_ascii = true.
Proof. vm_compute. reflexivity. Qed.

Lemma lower_eq_upper_eq (a b : ascii) :
  lower_char a = lower_char b ↔ upper_char a = upper_char b.
Proof.
  pose proof (all_ascii_complete _ case_table a) as Ha. cbv beta in Ha.
  pose proof (all_ascii_complete
                (fun b => Bool.eqb (Ascii.eqb (lower_char a) (lower_char b))
                            (Ascii.eqb (upper_char a) (upper_char b))) Ha b) as Hab.
  cbv beta in Hab.
  apply Bool.eqb_prop in Hab.
  rewrite <- !Ascii.eqb_eq, Hab. reflexivity.
Qed.

(** A character whose upper case is a capital letter is that letter,
    in one of its cases. *)
Lemma upper_table :
  forallb (fun c =>
    let u := upper_char c in
    implb (Str.is_word u && negb (Str.is_digit u) && negb (Ascii.eqb u "_"))
          (Ascii.eqb c u || Ascii.eqb c (lower_char u)))
    all_ascii = true.
Proof. vm_compute. reflexivity. Qed.

Lemma upper_char_letter (c u : ascii) :
  upper_char c = u →
  Str.is_word u && negb (Str.is_digit u) && negb (Ascii.eqb u "_") = true →
  c = u ∨ c = lower_char u.
Proof.
  intros <- Hu. pose proof (all_ascii_complete _ upper_table c) as Hc.
  cbv beta zeta in Hc. rewrite Hu in Hc. cbn [implb] in Hc.
  apply orb_true_iff in Hc as [Hc | Hc]; apply Ascii.eqb_eq in Hc; auto.
Qed.

(** What a literal matches under [IGNORECASE]. *)
Lemma match_literal_ignorecase_Some (literal s matched rest : string) :
  match_literal_ignorecase literal s = Some (matched, rest) →
  s = matched ++ rest ∧ upper matched = upper literal.
Proof.
  revert s matched. induction literal as [| a literal IH]; intros s matched.
  - simpl. intros [= <- <-]. done.
  - destruct s as [| b s]; simpl; [done |].
    destruct (Ascii.eqb (lower_char a) (lower_char b)) eqn:Hab; [| done].
    destruct (match_literal_ignorecase literal s) as [[m r] |] eqn:Hm; [| done].
    simpl. intros [= <- <-]. apply IH in Hm as [-> Hup].
    apply Ascii.eqb_eq, lower_eq_upper_eq in Hab.
    split; [done |]. simpl. by rewrite Hab, Hup.
Qed.

Lemma match_verb_Some (verb attr matched : string) :
  match_verb verb attr = Some matched →
  ∃ rest, attr = matched ++ "_" ++ rest ∧ upper matched = upper verb.
Proof.
  unfold match_verb.
  destruct (match_literal_ignorecase verb attr) as [[m r] |] eqn:Hm; [| done].
  destruct r as [| c r]; [done |].
  destruct (Ascii.ascii_dec c "_") as [-> | Hne].
  - intros [= <-]. apply match_literal_ignorecase_Some in Hm as [-> Hup].
    by exists r.
  - intros H. exfalso. revert H.
    destruct c as [[] [] [] [] [] [] [] []]; done.
Qed.

Lemma routable_name_match_unfold (attr : string) :
  routable_name_match attr
  = match match_verb "all" attr with
    | Some g => Some g
    | None =>
      match match_verb "get" attr with
      | Some g => Some g
      | None =>
        match match_verb "post" attr with
        | Some g => Some g
        | None =>
          match match_verb "put" attr with
          | Some g => Some g
          | None => match_verb "delete" attr
          end
        end
      end
    end.
Proof.
  unfold routable_name_match, routable_verbs. cbn [list_find].
  repeat match goal with
         | |- context [decide (is_Some (match_verb ?verb attr))] =>
             destruct (match_verb verb attr) as [g |] eqn:?; simpl;
             [ by simplify_option_eq |]
         end.
  done.
Qed.

(** The upper-cased verbs are the names of the methods. *)
Lemma upper_verb_method (verb matched : string) :
  verb ∈ routable_verbs → upper matched = upper verb →
  upper matched ∈ ["ALL"; "GET"; "POST"; "PUT"; "DELETE"]
  ∧ is_Some (HTTPMethod_by_name (upper matched)).
Proof.
  intros Hverb ->. unfold routable_verbs in Hverb.
  repeat (apply elem_of_cons in Hverb as [-> | Hverb]; [vm_compute; split; [set_solver | eauto] |]).
  by apply elem_of_nil in Hverb.
Qed.

Lemma upper_inv_cons (s : string) (u : ascii) (us : string) :
  upper s = String u us →
  ∃ c s', s = String c s' ∧ upper_char c = u ∧ upper s' = us.
Proof. destruct s as [| c s']; simpl; [done |]. intros [= <- <-]. eauto. Qed.

Lemma upper_inv_nil (s : string) : upper s = "" → s = "".
Proof. by destruct s. Qed.

(** Spelling out a word from its upper case: each letter in one of its
    two cases. *)
Ltac spell_out H :=
  repeat match type of H with
         | upper ?s = String ?u ?us =>
             let c := fresh "c" in
             let s' := fresh "s" in
             let Hc := fresh "Hc" in
             apply upper_inv_cons in H as (c & s' & -> & Hc & H);
             apply upper_char_letter in Hc as [-> | ->]; [| | reflexivity]
         | upper ?s = EmptyString => apply upper_inv_nil in H as ->
         end.

(** X1: a name is routable exactly when it begins with one of the verbs
    [all], [get], [post], [put] and [delete], in any letter case,
    followed by an underscore; group 1 of the match is the verb as it is
    written in the name, and its upper case names a method. *)
Theorem routable_name_match_iff (attr matched : string) :
  Str.is_ascii attr = true →
  routable_name_match attr = Some matched
  ↔ (∃ rest, attr = matched ++ "_" ++ rest)
    ∧ upper matched ∈ ["ALL"; "GET"; "POST"; "PUT"; "DELETE"].
Proof.
  intros _. split.
  - rewrite routable_name_match_unfold. intros Hm.
    assert (∃ verb, verb ∈ routable_verbs ∧ match_verb verb attr = Some matched)
      as (verb & Hverb & Hmatch).
    { unfold routable_verbs.
      repeat match type of Hm with
             | context [match_verb ?verb attr] =>
                 destruct (match_verb verb attr) as [g |] eqn:?;
                 [ injection Hm as ->; exists verb; split; [set_solver | done] |]
             end.
      done. }
    apply match_verb_Some in Hmatch as (rest & -> & Hup).
    split; [by exists rest |]. by apply upper_verb_method with verb.
  - intros [[rest ->] Hup].
    repeat (apply elem_of_cons in Hup as [Hup | Hup];
            [ spell_out Hup; vm_compute; reflexivity |]).
    by apply elem_of_nil in Hup.
Qed.

Lemma routable_name_match_iff_witness :
  Str.is_ascii "Get_index" = true
  ∧ (routable_name_match "Get_index" = Some "Get"
     ↔ (∃ rest, "Get_index" = "Get" ++ "_" ++ rest)
       ∧ upper "Get" ∈ ["ALL"; "GET"; "POST"; "PUT"; "DELETE"]).
Proof.
  split; [reflexivity |].
  apply (routable_name_match_iff "Get_index" "Get"). reflexivity.
Defined.

(** What [_find_routeable_attributes] yields for a key. *)
Lemma find_routeable_Some (attrs : gmap string value) (heap : Heap)
    (attr : string) (val : obj) (method_str : string) :
  find_routeable attrs heap attr = Some (val, method_str) →
  attrs !! attr = Some (Callable val)
  ∧ __doc__ (heap (obj_id val)) ≠ DocNone
  ∧ is_Some (HTTPMethod_by_name method_str)
  ∧ ∃ matched, routable_name_match attr = Some matched
               ∧ method_str = upper matched.
Proof.
  unfold find_routeable.
  destruct (routable_name_match attr) as [matched |] eqn:Hm; [| done]. simpl.
  destruct (attrs !! attr) as [[| val'] |]; try done.
  intros Hyield.
  assert (val' = val ∧ upper matched = method_str
          ∧ __doc__ (heap (obj_id val')) ≠ DocNone) as (-> & <- & Hdoc).
  { destruct (__doc__ (heap (obj_id val'))); [done | |];
      by injection Hyield as -> <-. }
  split; [done |]. split; [done |]. split; [| eauto].
  rewrite routable_name_match_unfold in Hm.
  assert (∃ verb, verb ∈ routable_verbs ∧ match_verb verb attr = Some matched)
    as (verb & Hverb & Hmatch).
  { unfold routable_verbs.
    repeat match type of Hm with
           | context [match_verb ?verb attr] =>
               destruct (match_verb verb attr) as [g |] eqn:?;
               [ injection Hm as ->; exists verb; split; [set_solver | done] |]
           end.
    done. }
  apply match_verb_Some in Hmatch as (rest & -> & Hup).
  by apply upper_verb_method with verb.
Qed.

(** X2: iterating [get_routing_attributes] never ends in a [KeyError]:
    the name looked up in [HTTPMethod] is always one of its members.  An
    [AttributeError] comes from assigning a docstring under
    [modify_doc], or else from the docstring of a callable attribute
    that is an object without [split]; and without [modify_doc] no
    docstring changes. *)
Theorem get_routing_attributes_endings (attrs : gmap string value)
    (modify_doc : bool) (keys : option (list string)) (heap : Heap) :
  let '(_, ending, heap') := get_routing_attributes attrs modify_doc keys heap in
  ending ≠ KeyError
  ∧ (ending = AttributeError →
     modify_doc = true
     ∨ ∃ attr val,
         attrs !! attr = Some (Callable val)
         ∧ __doc__ (heap (obj_id val)) = DocObject false)
  ∧ (modify_doc = false → heap' = heap).
Proof.
  unfold get_routing_attributes.
  generalize (match keys with None => dir attrs | Some keys0 => keys0 end).
  clear keys. intros keys.
  destruct modify_doc.
  - revert heap. induction keys as [| attr keys IH]; intros heap; [done |].
    cbn [routing_loop].
    destruct (negb (Str.is_ascii attr)); [done |].
    destruct (find_routeable attrs heap attr) as [[val method_str] |] eqn:Hfind;
      [| apply IH].
    apply find_routeable_Some in Hfind as (_ & Hdoc & [method Hmethod] & _).
    rewrite Hmethod.
    destruct (__doc__ (heap (obj_id val))) as [| text | []];
      [done | | done | by split; [| split; [left |]]].
    destruct (negb (Str.is_ascii text)); [done |].
    destruct (path_and_doc text) as [path rest].
    destruct (negb (py_bool path)); [apply IH |]. simpl.
    destruct (negb (doc_writable (heap (obj_id val))));
      [by split; [| split; [left |]] |].
    specialize (IH (set_doc val (String.concat "" rest) heap)).
    destruct (routing_loop attrs true keys _) as [[routes ending] heap'].
    destruct IH as (? & _ & _). by split; [| split; [left |]].
  - induction keys as [| attr keys IH]; [done |].
    cbn [routing_loop].
    destruct (negb (Str.is_ascii attr)); [done |].
    destruct (find_routeable attrs heap attr) as [[val method_str] |] eqn:Hfind;
      [| apply IH].
    apply find_routeable_Some in Hfind as (Hattr & Hdoc & [method Hmethod] & _).
    rewrite Hmethod.
    destruct (__doc__ (heap (obj_id val))) as [| text | []] eqn:Hobject;
      [done | | done |].
    + destruct (negb (Str.is_ascii text)); [done |].
      destruct (path_and_doc text) as [path rest].
      destruct (negb (py_bool path)); [apply IH |]. simpl.
      destruct (routing_loop attrs false keys heap) as [[routes ending] heap'].
      done.
    + split; [done |]. split; [| done]. intros _. right. by exists attr, val.
Qed.

(** [lstrip] drops whitespace and nothing else. *)
Lemma lstrip_spec (s : string) :
  ∃ ws, s = ws ++ lstrip s ∧ all_chars is_space ws = true
        ∧ match lstrip s with
          | EmptyString => True
          | String c _ => is_space c = false
          end.
Proof.
  induction s as [| c s (ws & Hs & Hws & Hhead)]; [by exists "" |].
  simpl. destruct (is_space c) eqn:Hc.
  - exists (String c ws). simpl. rewrite Hc, Hws. split; [by rewrite Hs at 1 |]. done.
  - exists "". by rewrite Hc.
Qed.

(** [first_word] cuts before the first whitespace. *)
Lemma first_word_spec (s w rest : string) :
  first_word s = (w, rest) →
  s = w ++ rest
  ∧ all_chars (fun c => negb (is_space c)) w = true
  ∧ match rest with
    | EmptyString => True
    | String c _ => is_space c = true
    end.
Proof.
  revert w. induction s as [| c s IH]; intros w; simpl.
  - by intros [= <- <-].
  - destruct (is_space c) eqn:Hc.
    + intros [= <- <-]. by rewrite Hc.
    + destruct (first_word s) as [w' rest'].
      intros [= <- <-]. destruct (IH w' eq_refl) as (-> & Hw & Hrest).
      simpl. by rewrite Hc, Hw.
Qed.

(** The path read from a docstring is its first word. *)
Lemma path_and_doc_spec (text path : string) (rest : list string) :
  path_and_doc text = (path, rest) → py_bool path = true →
  ∃ ws tail,
    text = ws ++ path ++ tail
    ∧ all_chars is_space ws = true
    ∧ all_chars (fun c => negb (is_space c)) path = true
    ∧ match tail with
      | EmptyString => True
      | String c _ => is_space c = true
      end
    ∧ String.concat "" rest = lstrip tail.
Proof.
  unfold path_and_doc, split_maxsplit1.
  destruct (lstrip_spec text) as (ws & Htext & Hws & Hhead).
  destruct (lstrip text) as [| c s1] eqn:Hstrip.
  { intros [= <- <-]. done. }
  destruct (first_word (String c s1)) as [w tail] eqn:Hword.
  apply first_word_spec in Hword as (Hsplit & Hw & Htail).
  intros Hparts _. exists ws, tail.
  assert (path = w ∧ String.concat "" rest = lstrip tail) as [-> ->].
  { destruct (lstrip tail) as [| c' tail'] eqn:Hl;
      injection Hparts as <- <-; simpl; done. }
  rewrite Htext, Hsplit. done.
Qed.

(** X3: every route that [get_routing_attributes] yields comes from one
    of the keys: an attribute that holds the callable of the route,
    whose name begins with the verb of the route's method; its path is
    not empty and contains no whitespace, and when docstrings are left
    alone it is the first word of the docstring of the callable. *)
Theorem get_routing_attributes_sound (attrs : gmap string value)
    (modify_doc : bool) (keys : option (list string)) (heap : Heap)
    (method : HTTPMethod) (path : string) (val : obj) :
  (method, path, val) ∈ (get_routing_attributes attrs modify_doc keys heap).1.1 →
  path ≠ ""
  ∧ all_chars (fun c => negb (is_space c)) path = true
  ∧ (∃ attr matched,
       attr ∈ default (dir attrs) keys
       ∧ attrs !! attr = Some (Callable val)
       ∧ routable_name_match attr = Some matched
       ∧ HTTPMethod_by_name (upper matched) = Some method)
  ∧ (modify_doc = false →
     ∃ ws tail,
       doc (heap (obj_id val)) = Some (ws ++ path ++ tail)
       ∧ all_chars is_space ws = true
       ∧ match tail with
         | EmptyString => True
         | String c _ => is_space c = true
         end).
Proof.
  unfold get_routing_attributes.
  replace (match keys with None => dir attrs | Some keys0 => keys0 end)
    with (default (dir attrs) keys) by (by destruct keys).
  generalize (default (dir attrs) keys). clear keys. intros keys. revert heap.
  induction keys as [| attr keys IH]; intros heap; [by intros ?%elem_of_nil |].
  assert (∀ heap',
            (modify_doc = false → heap' = heap) →
            (method, path, val) ∈ (routing_loop attrs modify_doc keys heap').1.1 →
            path ≠ ""
            ∧ all_chars (fun c => negb (is_space c)) path = true
            ∧ (∃ attr0 matched,
                 attr0 ∈ attr :: keys
                 ∧ attrs !! attr0 = Some (Callable val)
                 ∧ routable_name_match attr0 = Some matched
                 ∧ HTTPMethod_by_name (upper matched) = Some method)
            ∧ (modify_doc = false →
               ∃ ws tail,
                 doc (heap (obj_id val)) = Some (ws ++ path ++ tail)
                 ∧ all_chars is_space ws = true
                 ∧ match tail with
                   | EmptyString => True
                   | String c _ => is_space c = true
                   end)) as Hrest.
  { intros heap' Hheap Hin. apply IH in Hin
      as (? & ? & (attr0 & matched & ? & ? & ? & ?) & Hdoc).
    split; [done |]. split; [done |].
    split; [exists attr0, matched; rewrite elem_of_cons; auto |].
    intros Hmod. rewrite <- (Hheap Hmod). auto. }
  cbn [routing_loop].
  destruct (negb (Str.is_ascii attr)); [by intros ?%elem_of_nil |].
  destruct (find_routeable attrs heap attr) as [[val' method_str] |] eqn:Hfind;
    [| by apply Hrest].
  apply find_routeable_Some in Hfind
    as (Hattr & Hnone & [method' Hmethod] & matched & Hmatch & ->).
  rewrite Hmethod.
  destruct (__doc__ (heap (obj_id val'))) as [| text | []] eqn:Hdoc;
    [done | | by intros ?%elem_of_nil | by intros ?%elem_of_nil].
  destruct (negb (Str.is_ascii text)); [by intros ?%elem_of_nil |].
  destruct (path_and_doc text) as [path' rest] eqn:Hpath.
  destruct (py_bool path') eqn:Hbool; simpl; [| by apply Hrest].
  destruct (modify_doc && negb (doc_writable (heap (obj_id val')))) eqn:Hwr;
    [by intros ?%elem_of_nil |].
  match goal with
  | |- context [routing_loop attrs modify_doc keys ?h] =>
      specialize (Hrest h); destruct (routing_loop attrs modify_doc keys h)
        as [[routes ending] heap''] eqn:Hloop
  end.
  simpl in *. intros [Heq | Hin]%elem_of_cons.
  - injection Heq as -> -> ->.
    apply path_and_doc_spec in Hpath as (ws & tail & -> & Hws & Hw & Htail & _);
      [| done].
    split; [by destruct path' |]. split; [done |].
    split; [exists attr, matched; rewrite elem_of_cons; auto |].
    intros _. exists ws, tail. unfold doc. by rewrite Hdoc.
  - apply Hrest; [| done]. by intros ->.
Qed.

Lemma get_routing_attributes_sound_witness :
  (GET, "/index", Pages.index)
    ∈ (get_routing_attributes Pages.attrs false None Pages.heap).1.1
  ∧ "/index" ≠ ""
  ∧ all_chars (fun c => negb (is_space c)) "/index" = true.
Proof.
  assert ((GET, "/index", Pages.index)
            ∈ (get_routing_attributes Pages.attrs false None Pages.heap).1.1) as Hin.
  { vm_compute. apply list_elem_of_further, list_elem_of_here. }
  split; [exact Hin |].
  destruct (get_routing_attributes_sound Pages.attrs false None Pages.heap
              GET "/index" Pages.index Hin) as (Hpath & Hword & _).
  split; [exact Hpath | exact Hword].
Defined.

(** The routes are registered in the order in which they are yielded. *)
Lemma add_routes_appends (routes : list (HTTPMethod * string * obj))
    (self : Router.t) :
  add_routes routes self = (tt, mk (mw_list self ++ map route_entry routes)).
Proof.
  revert self. induction routes as [| [[method path] func] routes IH]; intros self.
  - simpl. unfold mret, state_ret. destruct self. by rewrite app_nil_r.
  - cbn [add_routes]. unfold mbind, state_bind, add.
    rewrite IH. simpl. by rewrite <- app_assoc.
Qed.

(** Without [modify_doc], an iteration that reaches its end has yielded
    what each key contributes, in the order of the keys. *)
Lemma routing_loop_exhausted (attrs : gmap string value) (heap : Heap)
    (keys : list string) (routes : list (HTTPMethod * string * obj)) :
  (∃ heap', routing_loop attrs false keys heap = (routes, Exhausted, heap'))
  ↔ Forall (decided attrs heap) keys ∧ routes = omap (route_for attrs heap) keys.
Proof.
  revert routes. induction keys as [| attr keys IH]; intros routes.
  { simpl. split.
    - intros [heap' [= <- _]]. done.
    - intros [_ ->]. eauto. }
  rewrite Forall_cons.
  change (omap (route_for attrs heap) (attr :: keys))
    with (match route_for attrs heap attr with
          | Some r => r :: omap (route_for attrs heap) keys
          | None => omap (route_for attrs heap) keys
          end).
  cbn [routing_loop]. unfold route_for at 1, decided at 1.
  destruct (Str.is_ascii attr) eqn:Hascii; simpl.
  2:{ split; [by intros [? ?] | by intros [[[? _] _] _]]. }
  destruct (find_routeable attrs heap attr) as [[val method_str] |] eqn:Hfind; simpl.
  2:{ rewrite IH. split; [intros [? ->] | intros [[_ ?] ->]]; repeat split; done. }
  pose proof Hfind as Hfind'.
  apply find_routeable_Some in Hfind' as (_ & Hnone & [method Hmethod] & _).
  rewrite Hmethod. unfold doc.
  destruct (__doc__ (heap (obj_id val))) as [| text | has_split] eqn:Hdoc;
    [done | | ]; simpl.
  2:{ split; [by destruct has_split; intros [? ?] |].
      intros [[[_ Hdec] _] _]. destruct (Hdec _ _ eq_refl) as (? & ? & _).
      congruence. }
  destruct (Str.is_ascii text) eqn:Htext; simpl.
  2:{ split; [by intros [? ?] |].
      intros [[[_ Hdec] _] _]. destruct (Hdec _ _ eq_refl) as (? & ? & ?).
      congruence. }
  destruct (path_and_doc text) as [path rest].
  destruct (py_bool path); simpl.
  - destruct (routing_loop attrs false keys heap) as [[routes' ending] heap''] eqn:Hloop.
    split.
    + intros [heap' [= <- -> <-]].
      destruct (proj1 (IH routes') (ex_intro _ heap'' eq_refl)) as [Hdec ->].
      repeat split; try done. intros ? ? [= <- <-]. eauto.
    + intros [[_ Hdec] ->].
      destruct (proj2 (IH _) (conj Hdec eq_refl)) as [heap' [= <- -> <-]].
      eauto.
  - rewrite IH. split.
    + intros [Hdec ->]. repeat split; try done. intros ? ? [= <- <-]. eauto.
    + intros [[_ ?] ->]. done.
Qed.

(** When the two builders give a router. *)
Lemma routerify_Built (router : obj) (attrs : gmap string value)
    (heap : Heap) (built_router : Router.t) :
  (routerify router attrs heap).1 = Built built_router
  ↔ Forall (decided attrs heap) (dir attrs)
    ∧ built_router = mk (map route_entry (omap (route_for attrs heap) (dir attrs))).
Proof.
  unfold routerify, get_routing_attributes.
  pose proof (routing_loop_exhausted attrs heap (dir attrs)) as Hloop.
  destruct (routing_loop attrs false (dir attrs) heap) as [[routes ending] heap'].
  destruct ending; try (split; [done |]; intros (Hdec & _);
    by destruct (proj2 (Hloop _) (conj Hdec eq_refl)) as [? ?]).
  destruct (proj1 (Hloop routes) (ex_intro _ heap' eq_refl)) as [Hdec ->].
  rewrite add_routes_appends. simpl. split.
  - intros [= <-]. done.
  - intros (_ & ->). done.
Qed.

Lemma build_router_Built (classdict : list string) (router : obj)
    (attrs : gmap string value) (heap : Heap) (built_router : Router.t) :
  (build_router classdict router attrs heap).1 = Built built_router
  ↔ Forall (decided attrs heap) classdict
    ∧ built_router = mk (map route_entry (omap (route_for attrs heap) classdict)).
Proof.
  unfold build_router, get_routing_attributes.
  pose proof (routing_loop_exhausted attrs heap classdict) as Hloop.
  destruct (routing_loop attrs false classdict heap) as [[routes ending] heap'].
  destruct ending; try (split; [done |]; intros (Hdec & _);
    by destruct (proj2 (Hloop _) (conj Hdec eq_refl)) as [? ?]).
  destruct (proj1 (Hloop routes) (ex_intro _ heap' eq_refl)) as [Hdec ->].
  rewrite add_routes_appends. simpl. split.
  - intros [= <-]. done.
  - intros (_ & ->). done.
Qed.

(** The attribute a builder leaves on the object, when it gives a
    router. *)
Lemma routerify_attrs (router : obj) (attrs : gmap string value)
    (heap : Heap) (built_router : Router.t) :
  (routerify router attrs heap).1 = Built built_router →
  (routerify router attrs heap).2
  = <["__growler_router" := Callable router]> attrs.
Proof.
  unfold routerify.
  destruct (get_routing_attributes attrs false None heap) as [[routes ending] heap'].
  by destruct ending.
Qed.

(** [dir] lists each attribute once, in the order of the strings. *)
Lemma dir_spec (attrs : gmap string value) :
  StronglySorted String.le (dir attrs)
  ∧ NoDup (dir attrs)
  ∧ ∀ attr, attr ∈ dir attrs ↔ attr ∈ dom attrs.
Proof.
  unfold dir. split; [apply StronglySorted_merge_sort; apply _ |].
  assert (merge_sort String.le (elements (dom attrs)) ≡ₚ elements (dom attrs))
    as Hperm by apply merge_sort_Permutation.
  split.
  - rewrite Hperm. apply NoDup_elements.
  - intros attr. rewrite Hperm. apply elem_of_elements.
Qed.

(** A key that is not routable contributes nothing. *)
Lemma route_for_routable (attrs : gmap string value) (heap : Heap)
    (attr : string) (route : HTTPMethod * string * obj) :
  route_for attrs heap attr = Some route →
  ∃ matched, routable_name_match attr = Some matched
             ∧ HTTPMethod_by_name (upper matched) = Some route.1.1
             ∧ attrs !! attr = Some (Callable route.2).
Proof.
  unfold route_for.
  destruct (find_routeable attrs heap attr) as [[val method_str] |] eqn:Hfind;
    [| done].
  apply find_routeable_Some in Hfind as (Hattr & _ & _ & matched & Hm & ->).
  simpl. destruct (doc (heap (obj_id val))) as [text |]; [| done]. simpl.
  destruct (path_and_doc text) as [path rest].
  destruct (py_bool path); [| done].
  destruct (HTTPMethod_by_name (upper matched)) as [method |] eqn:Hmethod; [| done].
  intros [= <-]. exists matched. done.
Qed.

Lemma omap_filter_routable (attrs : gmap string value) (heap : Heap)
    (keys : list string) :
  omap (route_for attrs heap) keys
  = omap (route_for attrs heap)
      (filter (fun attr => is_Some (routable_name_match attr)) keys).
Proof.
  induction keys as [| attr keys IH]; [done |].
  rewrite filter_cons.
  change (omap (route_for attrs heap) (attr :: keys))
    with (match route_for attrs heap attr with
          | Some r => r :: omap (route_for attrs heap) keys
          | None => omap (route_for attrs heap) keys
          end).
  case_decide as Hr.
  - change (omap (route_for attrs heap) (attr :: ?l))
      with (match route_for attrs heap attr with
            | Some r => r :: omap (route_for attrs heap) l
            | None => omap (route_for attrs heap) l
            end).
    by rewrite IH.
  - destruct (route_for attrs heap attr) as [route |] eqn:Hroute; [| done].
    apply route_for_routable in Hroute as (matched & Hm & _).
    destruct Hr. eauto.
Qed.

(** X4: the router a class gets from [RouterMeta] and the router
    [routerify] builds for the same object hold the same routes when the
    routable names of the object are those of the class body; the first
    has them in the order of the class body, the second in the order of
    [dir]. *)
Theorem build_router_routerify_same_routes (classdict : list string)
    (router1 router2 : obj) (attrs : gmap string value)
    (heap : Heap) (built1 built2 : Router.t) :
  NoDup classdict →
  (∀ attr, is_Some (routable_name_match attr) →
           attr ∈ classdict ↔ attr ∈ dom attrs) →
  (build_router classdict router1 attrs heap).1 = Built built1 →
  (routerify router2 attrs heap).1 = Built built2 →
  mw_list built1 ≡ₚ mw_list built2.
Proof.
  intros Hnodup Hsame (_ & ->)%build_router_Built (_ & ->)%routerify_Built.
  simpl. apply fmap_Permutation.
  rewrite (omap_filter_routable _ _ classdict), (omap_filter_routable _ _ (dir attrs)).
  apply omap_Permutation.
  destruct (dir_spec attrs) as (_ & Hnodup' & Hdir).
  apply NoDup_Permutation; [by apply NoDup_filter | by apply NoDup_filter |].
  intros attr. rewrite !list_elem_of_filter, Hdir.
  split; intros [Hr Hin]; (split; [done |]); by apply (Hsame attr Hr).
Qed.

Lemma pages_names (attr : string) :
  attr ∈ Pages.classdict ↔ attr ∈ dom Pages.attrs.
Proof.
  rewrite elem_of_dom. unfold Pages.classdict.
  rewrite !elem_of_cons, elem_of_nil. split.
  - intros Hattr. apply not_eq_None_Some.
    repeat destruct Hattr as [-> | Hattr]; [by vm_compute .. | done].
  - intros [v Hv]. revert Hv. unfold Pages.attrs.
    repeat (rewrite lookup_insert; case_decide; [intros _; subst; tauto |]).
    by rewrite lookup_empty.
Qed.

Lemma pages_classdict_NoDup : NoDup Pages.classdict.
Proof.
  unfold Pages.classdict.
  repeat (constructor;
          [ rewrite ?elem_of_cons, elem_of_nil; intros Hin;
            repeat destruct Hin as [Hin | Hin]; done |]).
  constructor.
Qed.

Lemma build_router_routerify_same_routes_witness :
  NoDup Pages.classdict
  ∧ (build_router Pages.classdict Pages.router Pages.attrs Pages.heap).1
    = Built Pages.in_class_order
  ∧ (routerify Pages.router' Pages.attrs Pages.heap).1
    = Built Pages.in_name_order
  ∧ mw_list Pages.in_class_order ≡ₚ mw_list Pages.in_name_order.
Proof.
  assert ((build_router Pages.classdict Pages.router Pages.attrs Pages.heap).1
          = Built Pages.in_class_order) as Hbuild by (vm_compute; reflexivity).
  assert ((routerify Pages.router' Pages.attrs Pages.heap).1
          = Built Pages.in_name_order) as Hrouterify by (vm_compute; reflexivity).
  split; [exact pages_classdict_NoDup |].
  split; [exact Hbuild |]. split; [exact Hrouterify |].
  exact (build_router_routerify_same_routes _ _ _ _ _ _ _
           pages_classdict_NoDup (fun attr _ => pages_names attr) Hbuild Hrouterify).
Defined.

Lemma StronglySorted_omap {A B} (R : relation A) (R' : relation B)
    (f : A → option B) (l : list A) :
  (∀ x y a b, x ∈ l → y ∈ l → R x y → f x = Some a → f y = Some b → R' a b) →
  StronglySorted R l → StronglySorted R' (omap f l).
Proof.
  intros Hmono Hsorted. induction Hsorted as [| x l Hsorted IH Hx]; [constructor |].
  change (omap f (x :: l))
    with (match f x with Some a => a :: omap f l | None => omap f l end).
  assert (StronglySorted R' (omap f l)) as IH'.
  { apply IH. intros ? ? ? ? ? ?. apply Hmono; by apply list_elem_of_further. }
  destruct (f x) as [a |] eqn:Hfx; [| done].
  constructor; [done |].
  apply Forall_forall. intros b (y & Hy & Hfy)%list_elem_of_omap.
  apply (Hmono x y); [apply list_elem_of_here | by apply list_elem_of_further | | done | done].
  rewrite Forall_forall in Hx. by apply Hx.
Qed.

(** Names that begin with verbs in lower case are ordered as their
    verbs are. *)
Lemma verbs_in_name_order (verb1 verb2 rest1 rest2 : string)
    (method1 method2 : HTTPMethod) :
  verb1 ∈ routable_verbs → verb2 ∈ routable_verbs →
  HTTPMethod_by_name (upper verb1) = Some method1 →
  HTTPMethod_by_name (upper verb2) = Some method2 →
  String.le (verb1 ++ "_" ++ rest1) (verb2 ++ "_" ++ rest2) →
  (alphabetical_rank method1 ≤ alphabetical_rank method2)%nat.
Proof.
  unfold routable_verbs. intros Hv1 Hv2 Hm1 Hm2 Hle.
  repeat (apply elem_of_cons in Hv1 as [-> | Hv1]);
    [.. | by apply elem_of_nil in Hv1];
    (repeat (apply elem_of_cons in Hv2 as [-> | Hv2]);
     [.. | by apply elem_of_nil in Hv2]);
    vm_compute in Hm1, Hm2; injection Hm1 as <-; injection Hm2 as <-;
    first [ by (simpl; lia) | by vm_compute in Hle ].
Qed.

(** X5: [routerify] registers the routes in the alphabetical order of
    the attribute names, so that when the verbs are written in lower
    case every [all_] route comes first, then the [delete_], [get_],
    [post_] and [put_] routes. *)
Theorem routerify_alphabetical (router : obj) (attrs : gmap string value)
    (heap : Heap) (built_router : Router.t) :
  (∀ attr matched,
     attr ∈ dom attrs → routable_name_match attr = Some matched →
     matched ∈ routable_verbs) →
  (routerify router attrs heap).1 = Built built_router →
  StronglySorted
    (fun mw1 mw2 =>
       (alphabetical_rank (mask mw1) ≤ alphabetical_rank (mask mw2))%nat)
    (mw_list built_router).
Proof.
  intros Hlower (_ & ->)%routerify_Built. simpl.
  destruct (dir_spec attrs) as (Hsorted & _ & Hdir).
  apply (StronglySorted_fmap route_entry
           (fun r1 r2 : HTTPMethod * string * obj =>
              (alphabetical_rank r1.1.1 ≤ alphabetical_rank r2.1.1)%nat)).
  { intros [[m1 p1] f1] [[m2 p2] f2]. done. }
  apply (StronglySorted_omap String.le); [| done].
  intros attr1 attr2 route1 route2 Hin1 Hin2 Hle
    (g1 & Hg1 & Hm1 & _)%route_for_routable (g2 & Hg2 & Hm2 & _)%route_for_routable.
  pose proof (Hlower _ _ (proj1 (Hdir _) Hin1) Hg1) as Hv1.
  pose proof (Hlower _ _ (proj1 (Hdir _) Hin2) Hg2) as Hv2.
  rewrite routable_name_match_unfold in Hg1, Hg2.
  assert (∃ rest, attr1 = g1 ++ "_" ++ rest) as [rest1 ->].
  { repeat match type of Hg1 with
           | context [match_verb ?verb attr1] =>
               let H := fresh in
               destruct (match_verb verb attr1) as [g |] eqn:H;
               [ injection Hg1 as ->;
                 apply match_verb_Some in H as (rest & -> & _); by exists rest |]
           end.
    done. }
  assert (∃ rest, attr2 = g2 ++ "_" ++ rest) as [rest2 ->].
  { repeat match type of Hg2 with
           | context [match_verb ?verb attr2] =>
               let H := fresh in
               destruct (match_verb verb attr2) as [g |] eqn:H;
               [ injection Hg2 as ->;
                 apply match_verb_Some in H as (rest & -> & _); by exists rest |]
           end.
    done. }
  by apply (verbs_in_name_order g1 g2 rest1 rest2).
Qed.

Lemma pages_lower_case (attr matched : string) :
  attr ∈ dom Pages.attrs → routable_name_match attr = Some matched →
  matched ∈ routable_verbs.
Proof.
  rewrite <- pages_names. unfold Pages.classdict.
  rewrite !elem_of_cons, elem_of_nil. intros Hattr Hm.
  repeat destruct Hattr as [-> | Hattr]; try done;
    vm_compute in Hm; try done; injection Hm as <-;
    unfold routable_verbs; rewrite !elem_of_cons; tauto.
Qed.

Lemma routerify_alphabetical_witness :
  (routerify Pages.router Pages.attrs Pages.heap).1 = Built Pages.in_name_order
  ∧ StronglySorted
      (fun mw1 mw2 =>
         (alphabetical_rank (mask mw1) ≤ alphabetical_rank (mask mw2))%nat)
      (mw_list Pages.in_name_order).
Proof.
  assert ((routerify Pages.router Pages.attrs Pages.heap).1
          = Built Pages.in_name_order) as Hbuilt by (vm_compute; reflexivity).
  split; [exact Hbuilt |].
  exact (routerify_alphabetical _ _ _ _ pages_lower_case Hbuilt).
Defined.

Lemma StronglySorted_filter {A} (R : relation A) (P : A → Prop)
    `{∀ x, Decision (P x)} (l : list A) :
  StronglySorted R l → StronglySorted R (filter P l).
Proof.
  induction 1 as [| x l Hsorted IH Hx]; [constructor |].
  rewrite filter_cons. case_decide; [| done].
  constructor; [done |].
  apply Forall_forall. intros y [_ Hy]%list_elem_of_filter.
  rewrite Forall_forall in Hx. by apply Hx.
Qed.

Lemma omap_filter_None {A B} (f : A → option B) (P : A → Prop)
    `{∀ x, Decision (P x)} (l : list A) :
  (∀ x, ¬ P x → f x = None) → omap f l = omap f (filter P l).
Proof.
  intros Hnone. induction l as [| x l IH]; [done |].
  rewrite filter_cons.
  change (omap f (x :: l))
    with (match f x with Some a => a :: omap f l | None => omap f l end).
  case_decide as HP.
  - change (omap f (x :: ?k))
      with (match f x with Some a => a :: omap f k | None => omap f k end).
    by rewrite IH.
  - by rewrite (Hnone x HP).
Qed.

Lemma omap_pointwise {A B} (f g : A → option B) (l : list A) :
  (∀ x, f x = g x) → omap f l = omap g l.
Proof.
  intros Hfg. induction l as [| x l IH]; [done |].
  change (omap ?h (x :: l))
    with (match h x with Some a => a :: omap h l | None => omap h l end).
  by rewrite Hfg, IH.
Qed.

(** The attribute in which [routerify] keeps the router is not a
    routable name. *)
Lemma find_routeable_growler_router (router : obj) (attrs : gmap string value)
    (heap : Heap) (attr : string) :
  find_routeable (<["__growler_router" := Callable router]> attrs) heap attr
  = find_routeable attrs heap attr.
Proof.
  unfold find_routeable.
  destruct (decide (attr = "__growler_router")) as [-> | Hne].
  - reflexivity.
  - by rewrite lookup_insert_ne.
Qed.

(** X6: the attribute that [routerify] leaves on the object is not
    taken for a route: scanning the object a second time builds the
    same router. *)
Theorem routerify_again (router1 router2 : obj) (attrs : gmap string value)
    (heap : Heap) (built_router : Router.t) :
  (routerify router1 attrs heap).1 = Built built_router →
  (routerify router2 (routerify router1 attrs heap).2 heap).1 = Built built_router.
Proof.
  intros Hbuilt. rewrite (routerify_attrs _ _ _ _ Hbuilt).
  apply routerify_Built in Hbuilt as [Hdec ->].
  set (attrs1 := <["__growler_router" := Callable router1]> attrs).
  assert (∀ attr, route_for attrs1 heap attr = route_for attrs heap attr) as Hroute.
  { intros attr. unfold route_for, attrs1.
    by rewrite find_routeable_growler_router. }
  destruct (dir_spec attrs) as (Hsorted & Hnodup & Hdir).
  destruct (dir_spec attrs1) as (Hsorted1 & Hnodup1 & Hdir1).
  assert (∀ attr, attr ∈ dir attrs1 ↔ attr = "__growler_router" ∨ attr ∈ dir attrs)
    as Hdom.
  { intros attr. rewrite Hdir1, Hdir. unfold attrs1.
    rewrite dom_insert_L, elem_of_union, elem_of_singleton. done. }
  apply routerify_Built. split.
  - apply Forall_forall. intros attr [-> | Hin]%Hdom.
    + split; [reflexivity |]. intros val method_str Hfind. done.
    + rewrite Forall_forall in Hdec. destruct (Hdec attr Hin) as [Hascii Hdocs].
      split; [done |]. intros val method_str.
      unfold attrs1. rewrite find_routeable_growler_router. apply Hdocs.
  - f_equal. f_equal.
    rewrite (omap_pointwise _ _ (dir attrs1) Hroute).
    rewrite (omap_filter_None _ (fun attr => attr ≠ "__growler_router") (dir attrs)),
      (omap_filter_None _ (fun attr => attr ≠ "__growler_router") (dir attrs1)).
    + f_equal. apply (StronglySorted_unique String.le).
      * by apply StronglySorted_filter.
      * by apply StronglySorted_filter.
      * apply NoDup_Permutation; [by apply NoDup_filter | by apply NoDup_filter |].
        intros attr. rewrite !list_elem_of_filter, Hdom. tauto.
    + intros attr Heq. apply dec_stable in Heq as ->. reflexivity.
    + intros attr Heq. apply dec_stable in Heq as ->. reflexivity.
Qed.

Lemma routerify_again_witness :
  (routerify Pages.router Pages.attrs Pages.heap).1 = Built Pages.in_name_order
  ∧ (routerify Pages.router'
       (routerify Pages.router Pages.attrs Pages.heap).2 Pages.heap).1
    = Built Pages.in_name_order.
Proof.
  assert ((routerify Pages.router Pages.attrs Pages.heap).1
          = Built Pages.in_name_order) as Hbuilt by (vm_compute; reflexivity).
  split; [exact Hbuilt |].
  exact (routerify_again Pages.router Pages.router' _ _ _ Hbuilt).
Defined.

(** X7: with [modify_doc], the iteration rewrites the docstrings of the
    callables it yields and no other; it never changes whether a
    docstring can be assigned.  When no callable is yielded twice, the
    docstring of each is left without its first word, the path, and
    without the whitespace around it. *)
Theorem modify_doc_rewrites (attrs : gmap string value)
    (keys : option (list string)) (heap : Heap) :
  let '(routes, _, heap') := get_routing_attributes attrs true keys heap in
  (∀ i, i ∉ map (fun route : HTTPMethod * string * obj => obj_id route.2) routes →
        heap' i = heap i)
  ∧ (∀ i, doc_writable (heap' i) = doc_writable (heap i))
  ∧ (NoDup (map (fun route : HTTPMethod * string * obj => obj_id route.2) routes) →
     ∀ method path val,
       (method, path, val) ∈ routes →
       ∃ ws tail,
         doc (heap (obj_id val)) = Some (ws ++ path ++ tail)
         ∧ all_chars is_space ws = true
         ∧ doc (heap' (obj_id val)) = Some (lstrip tail)).
Proof.
  unfold get_routing_attributes.
  generalize (match keys with None => dir attrs | Some keys0 => keys0 end).
  clear keys. intros keys. revert heap.
  induction keys as [| attr keys IH]; intros heap.
  { simpl. split; [done |]. split; [done |].
    intros _ ? ? ? ?%elem_of_nil. done. }
  cbn [routing_loop].
  destruct (negb (Str.is_ascii attr)).
  { split; [done |]. split; [done |]. intros _ ? ? ? ?%elem_of_nil. done. }
  destruct (find_routeable attrs heap attr) as [[val method_str] |] eqn:Hfind;
    [| apply IH].
  apply find_routeable_Some in Hfind as (_ & Hnone & [method Hmethod] & _).
  rewrite Hmethod.
  destruct (__doc__ (heap (obj_id val))) as [| text | has_split] eqn:Hdoc;
    [done | |].
  2:{ destruct has_split; (split; [done |]; split; [done |]);
        intros _ ? ? ? ?%elem_of_nil; done. }
  destruct (negb (Str.is_ascii text)).
  { split; [done |]. split; [done |]. intros _ ? ? ? ?%elem_of_nil. done. }
  destruct (path_and_doc text) as [path rest] eqn:Hpath.
  destruct (py_bool path) eqn:Hbool; simpl; [| apply IH].
  destruct (doc_writable (heap (obj_id val))) eqn:Hwritable; simpl.
  2:{ split; [done |]. split; [done |]. intros _ ? ? ? ?%elem_of_nil. done. }
  specialize (IH (set_doc val (String.concat "" rest) heap)).
  destruct (routing_loop attrs true keys _) as [[routes ending] heap'].
  destruct IH as (Hframe & Hwr & Hdocs).
  apply path_and_doc_spec in Hpath as (ws & tail & -> & Hws & _ & _ & Hrest);
    [| done].
  assert (∀ i, i ≠ obj_id val →
               set_doc val (String.concat "" rest) heap i = heap i) as Hother.
  { intros i Hi. unfold set_doc. by rewrite decide_False. }
  split; [| split].
  - intros i Hi. cbn [map] in Hi. apply not_elem_of_cons in Hi as [Hne Hi].
    rewrite (Hframe i Hi). by apply Hother.
  - intros i. rewrite Hwr. unfold set_doc. case_decide; [by subst |done].
  - cbn [map]. intros [Hfresh Hnodup]%NoDup_cons method0 path0 val0
      [Heq | Hin]%elem_of_cons.
    + injection Heq as -> -> ->. exists ws, tail. unfold doc.
      split; [by rewrite Hdoc |]. split; [done |].
      simpl in Hfresh. rewrite (Hframe (obj_id val) Hfresh). unfold set_doc.
      rewrite decide_True by done. simpl. by rewrite Hrest.
    + destruct (Hdocs Hnodup _ _ _ Hin) as (ws0 & tail0 & Hdoc0 & Hws0 & Hdoc0').
      exists ws0, tail0. split; [| done].
      rewrite <- Hdoc0. symmetry. f_equal. apply Hother.
      intros Heq. apply Hfresh. cbn [snd]. rewrite <- Heq.
      apply (list_elem_of_fmap_2 (fun route : HTTPMethod * string * obj => obj_id route.2)
               _ (method0, path0, val0)). done.
Qed.

(** X19: without [modify_doc], an iteration that reaches its end has
    yielded a route for every key that names, with a routable name, a
    callable whose docstring is not blank: under the method of the verb,
    with the first word of the docstring as path. *)
Theorem get_routing_attributes_complete (attrs : gmap string value)
    (keys : option (list string)) (heap : Heap)
    (routes : list (HTTPMethod * string * obj))
    (attr matched text : string) (val : obj) :
  (get_routing_attributes attrs false keys heap).1 = (routes, Exhausted) →
  attr ∈ default (dir attrs) keys →
  routable_name_match attr = Some matched →
  attrs !! attr = Some (Callable val) →
  doc (heap (obj_id val)) = Some text →
  lstrip text ≠ "" →
  ∃ method,
    HTTPMethod_by_name (upper matched) = Some method
    ∧ (method, (first_word (lstrip text)).1, val) ∈ routes.
Proof.
  unfold get_routing_attributes.
  replace (match keys with None => dir attrs | Some keys0 => keys0 end)
    with (default (dir attrs) keys) by (by destruct keys).
  intros Hloop Hin Hmatch Hattr Hdoc Hblank.
  destruct (routing_loop attrs false (default (dir attrs) keys) heap)
    as [[routes' ending] heap'] eqn:Hrun.
  injection Hloop as -> ->.
  destruct (proj1 (routing_loop_exhausted attrs heap _ routes)
                  (ex_intro _ heap' Hrun)) as [_ ->].
  assert (find_routeable attrs heap attr = Some (val, upper matched)) as Hfind.
  { unfold find_routeable. rewrite Hmatch. simpl. rewrite Hattr.
    unfold doc in Hdoc. by destruct (__doc__ (heap (obj_id val))). }
  destruct (find_routeable_Some _ _ _ _ _ Hfind) as (_ & _ & [method Hmethod] & _).
  exists method. split; [done |].
  apply list_elem_of_omap. exists attr. split; [done |].
  unfold route_for. rewrite Hfind. simpl. rewrite Hdoc. simpl.
  unfold path_and_doc, split_maxsplit1.
  destruct (lstrip_spec text) as (_ & _ & _ & Hhead).
  destruct (lstrip text) as [| c s1] eqn:Hstrip; [done |].
  destruct (first_word (String c s1)) as [w tail] eqn:Hword.
  assert (py_bool w = true) as Hw.
  { simpl in Hword. rewrite Hhead in Hword.
    destruct (first_word s1) as [w' tail']. by injection Hword as <- _. }
  destruct (lstrip tail); simpl; by rewrite Hw, Hmethod.
Qed.

Lemma get_routing_attributes_complete_witness :
  (get_routing_attributes Pages.attrs false None Pages.heap).1
  = ([(ALL, "/log", Pages.log); (GET, "/index", Pages.index);
      (POST, "/form", Pages.form)], Exhausted)
  ∧ ∃ method,
      HTTPMethod_by_name (upper "post") = Some method
      ∧ (method, "/form", Pages.form)
        ∈ [(ALL, "/log", Pages.log); (GET, "/index", Pages.index);
           (POST, "/form", Pages.form)].
Proof.
  assert ((get_routing_attributes Pages.attrs false None Pages.heap).1
          = ([(ALL, "/log", Pages.log); (GET, "/index", Pages.index);
              (POST, "/form", Pages.form)], Exhausted)) as Hrun
    by (vm_compute; reflexivity).
  split; [exact Hrun |].
  refine (get_routing_attributes_complete Pages.attrs None Pages.heap _
            "post_form" "post" "  /form" Pages.form Hrun _ eq_refl _ eq_refl _).
  - apply dir_spec, pages_names. unfold Pages.classdict.
    rewrite !elem_of_cons. tauto.
  - by vm_compute.
  - done.
Defined.
End RouteDiscovery.

(** ** Sequences of registrations *)
Section Registrations.
Import MiddlewareChain Registration.
Variable ROOT_PATTERN : PathArg.

Lemma perform_appends (c : call) (self : Router.t) :
  perform ROOT_PATTERN c self
  = (tt, mk (mw_list self
             ++ [let '(method, path, func) := asked ROOT_PATTERN c in
                 mkEntry method path func])).
Proof.
  destruct c as [method path handler | method path func | middleware path | path router].
  - by destruct method.
  - by destruct method.
  - by destruct path.
  - reflexivity.
Qed.

Lemma perform_all_appends (calls : list call) (self : Router.t) :
  perform_all ROOT_PATTERN calls self
  = (tt, mk (mw_list self
             ++ map (fun c => let '(method, path, func) := asked ROOT_PATTERN c in
                              mkEntry method path func) calls)).
Proof.
  revert self. induction calls as [| c calls IH]; intros self.
  - simpl. unfold mret, state_ret. destruct self. by rewrite app_nil_r.
  - cbn [perform_all]. unfold mbind, state_bind at 1.
    rewrite perform_appends, IH. simpl. by rewrite <- app_assoc.
Qed.

(** X8: whatever the registering methods that are called, and in
    whatever order, [routes] afterwards lists the routes it listed
    before, followed by one route per call, in the order of the calls,
    with the mask, path and handler of the call: nothing is dropped,
    reordered or merged, also when a call repeats an earlier one. *)
Theorem routes_after_registrations (calls : list call) (self : Router.t) :
  Router.routes (perform_all ROOT_PATTERN calls self).2
  = (Router.routes self ++ map (asked ROOT_PATTERN) calls)%list.
Proof.
  rewrite perform_all_appends. unfold Router.routes, Router.iter_routes. simpl.
  rewrite map_app, map_map. f_equal.
  apply map_ext. intros c. by destruct (asked ROOT_PATTERN c) as [[? ?] ?].
Qed.

(** X9: [subrouters] after a sequence of registrations yields what it
    yielded before, then the entries of those calls that registered a
    [Router], under whatever method of registration. *)
Theorem subrouters_after_registrations (calls : list call) (self : Router.t) :
  Router.subrouters (perform_all ROOT_PATTERN calls self).2
  = (Router.subrouters self
     ++ map (fun c => let '(method, path, func) := asked ROOT_PATTERN c in
                      mkEntry method path func)
          (List.filter (fun c => is_router (asked ROOT_PATTERN c).2) calls))%list.
Proof.
  rewrite perform_all_appends. unfold Router.subrouters. simpl.
  rewrite List.filter_app. f_equal.
  induction calls as [| c calls IH]; [done |]. simpl.
  destruct (asked ROOT_PATTERN c) as [[method path] func] eqn:Hc. simpl.
  destruct (is_router func); simpl; rewrite IH; [by rewrite Hc | done].
Qed.
End Registrations.

(** ** Paths without parameters, and the segments of a pattern *)
Section SplitJoin.

Lemma split_nonempty (sep : ascii) (s : string) : Str.split sep s ≠ [].
Proof.
  destruct s as [| c s]; simpl; [done |].
  destruct (Ascii.eqb c sep); [done |]. by destruct (Str.split sep s).
Qed.

(** Joining what [split] gives restores the text. *)
Lemma join_split (sep : ascii) (s : string) :
  Str.join (String sep "") (Str.split sep s) = s.
Proof.
  induction s as [| c s IH]; [done |]. simpl.
  destruct (Ascii.eqb c sep) eqn:Hc.
  - apply Ascii.eqb_eq in Hc as ->.
    pose proof (split_nonempty sep s) as Hne.
    destruct (Str.split sep s) as [| seg segs]; [done |].
    change (String sep (Str.join (String sep "") (seg :: segs)) = String sep s).
    by rewrite IH.
  - pose proof (split_nonempty sep s) as Hne.
    destruct (Str.split sep s) as [| seg segs]; [done |].
    destruct segs as [| seg' segs].
    + simpl in *. by rewrite IH.
    + change (String c (Str.join (String sep "") (seg :: seg' :: segs)) = String c s).
      by rewrite IH.
Qed.

Lemma all_chars_app (test : ascii → bool) (a b : string) :
  Discovery.all_chars test (a ++ b)
  = Discovery.all_chars test a && Discovery.all_chars test b.
Proof.
  induction a as [| c a IH]; [done |].
  change (test c && Discovery.all_chars test (a ++ b)
          = test c && Discovery.all_chars test a && Discovery.all_chars test b).
  by rewrite IH, andb_assoc.
Qed.

Lemma split_free (sep : ascii) (s : string) :
  Sinatra.free_of sep s → Str.split sep s = [s].
Proof.
  unfold Sinatra.free_of. induction s as [| c s IH]; [done |]. simpl.
  intros [Hc Hs]%andb_true_iff. apply negb_true_iff in Hc. rewrite Hc.
  by rewrite (IH Hs).
Qed.

Lemma split_app_sep (sep : ascii) (a b : string) :
  Sinatra.free_of sep a → Str.split sep (a ++ String sep b) = a :: Str.split sep b.
Proof.
  unfold Sinatra.free_of. induction a as [| c a IH].
  - intros _. change (Str.split sep (String sep b) = "" :: Str.split sep b).
    simpl. by rewrite Ascii.eqb_refl.
  - simpl. intros [Hc Ha]%andb_true_iff. apply negb_true_iff in Hc.
    change (Str.split sep (String c (a ++ String sep b))
            = String c a :: Str.split sep b).
    simpl. by rewrite Hc, (IH Ha).
Qed.

Lemma split_join (sep : ascii) (parts : list string) :
  parts ≠ [] → Forall (Sinatra.free_of sep) parts →
  Str.split sep (Str.join (String sep "") parts) = parts.
Proof.
  intros Hne Hfree. induction Hfree as [| p parts Hp Hparts IH]; [done |].
  destruct parts as [| p' parts].
  - simpl. by apply split_free.
  - change (Str.split sep (p ++ String sep (Str.join (String sep "") (p' :: parts)))
            = p :: p' :: parts).
    rewrite split_app_sep by done. f_equal. by apply IH.
Qed.

Lemma split_parts_free (sep : ascii) (s : string) :
  Forall (Sinatra.free_of sep) (Str.split sep s).
Proof.
  induction s as [| c s IH]; simpl; [by repeat constructor |].
  destruct (Ascii.eqb c sep) eqn:Hc; [by constructor |].
  destruct (Str.split sep s) as [| seg segs]; [by repeat constructor; unfold Sinatra.free_of; simpl; rewrite Hc |].
  inversion IH as [| ? ? Hseg Hsegs]; subst. constructor; [| done].
  unfold Sinatra.free_of in *. simpl. by rewrite Hc, Hseg.
Qed.
End SplitJoin.

Section LiteralPaths.
Import Examples.

(** The pattern keeps the source it was compiled from. *)
Lemma parse_pattern (m : Re.mode) (acc : list Re.item) (src rest : string)
    (p : Re.Pattern) :
  Re.parse m acc src rest = Re.Compiled p → Re.pattern p = src.
Proof.
  revert m acc. induction rest as [| c rest IH]; intros m acc; simpl.
  - destruct m as [| | name |]; try done; [by intros [= <-] | by destruct name].
  - destruct (Re.step m acc c) as [m' acc' | r] eqn:Hstep; [apply IH |].
    intros ->. revert Hstep. unfold Re.step.
    repeat case_match; done.
Qed.

Lemma compile_pattern (src : string) (p : Re.Pattern) :
  Re.compile src = Re.Compiled p → Re.pattern p = src.
Proof.
  unfold Re.compile. destruct (Str.is_ascii src); [apply parse_pattern | done].
Qed.

Lemma mapM_segment_regex (segs : list string) :
  mapM Router.segment_regex segs
  = Some (map (fun segment =>
                 if Router.sinatra_param_match segment
                 then "(?P<" ++ Str.tail segment ++ ">\w+)" else segment) segs).
Proof.
  apply mapM_Some. induction segs as [| seg segs IH]; constructor; [| done].
  apply segment_regex_total.
Qed.

(** X10: a path none of whose segments begins with a colon and a word
    character is compiled as it stands: its text is the source of the
    pattern, with whatever the text means to [re]. *)
Theorem sinatra_path_to_regex_literal (s : string) :
  Forall (fun segment => Router.sinatra_param_match segment = false)
    (Str.split "/" s) →
  Router.sinatra_path_to_regex (PathStr s) = Re.compile s.
Proof.
  intros Hplain. unfold Router.sinatra_path_to_regex.
  destruct (Str.is_ascii s) eqn:Hascii.
  - rewrite mapM_segment_regex.
    assert (map (fun segment =>
                   if Router.sinatra_param_match segment
                   then "(?P<" ++ Str.tail segment ++ ">\w+)" else segment)
              (Str.split "/" s) = Str.split "/" s) as ->.
    { induction Hplain as [| seg segs Hseg _ IH]; [done |].
      simpl. by rewrite Hseg, IH. }
    by rewrite (join_split "/" s).
  - unfold Re.compile. by rewrite Hascii.
Qed.

Lemma sinatra_path_to_regex_literal_witness :
  Forall (fun segment => Router.sinatra_param_match segment = false)
    (Str.split "/" "/blog/list")
  ∧ Router.sinatra_path_to_regex (PathStr "/blog/list") = Re.compile "/blog/list".
Proof.
  assert (Forall (fun segment => Router.sinatra_param_match segment = false)
            (Str.split "/" "/blog/list")) as Hplain
    by (repeat constructor).
  split; [exact Hplain |].
  exact (sinatra_path_to_regex_literal "/blog/list" Hplain).
Defined.

(** X11: compilation works segment by segment and keeps the slashes:
    the source of the pattern has as many segments as the path, each
    the segment of the path or the group written for it. *)
Theorem sinatra_path_to_regex_segments (s : string) (p : Re.Pattern) :
  Router.sinatra_path_to_regex (PathStr s) = Re.Compiled p →
  Str.split "/" (Re.pattern p)
  = map (fun segment =>
           if Router.sinatra_param_match segment
           then "(?P<" ++ Str.tail segment ++ ">\w+)" else segment)
      (Str.split "/" s).
Proof.
  unfold Router.sinatra_path_to_regex.
  destruct (Str.is_ascii s); [| done].
  rewrite mapM_segment_regex. intros ->%compile_pattern.
  apply (split_join "/").
  - pose proof (split_nonempty "/" s). by destruct (Str.split "/" s).
  - apply Forall_fmap. eapply Forall_impl; [apply (split_parts_free "/") |].
    intros seg Hseg. simpl. destruct (Router.sinatra_param_match seg); [| done].
    unfold Sinatra.free_of in *. rewrite !all_chars_app.
    destruct seg as [| c seg]; [done |]. simpl in Hseg.
    apply andb_true_iff in Hseg as [_ Hseg]. simpl. by rewrite Hseg.
Qed.

Lemma sinatra_path_to_regex_segments_witness :
  Router.sinatra_path_to_regex (PathStr "/users/:id") = Re.Compiled users_pattern
  ∧ Str.split "/" (Re.pattern users_pattern) = [""; "users"; "(?P<id>\w+)"].
Proof.
  assert (Router.sinatra_path_to_regex (PathStr "/users/:id")
          = Re.Compiled users_pattern) as Hcompiled by (vm_compute; reflexivity).
  split; [exact Hcompiled |].
  exact (sinatra_path_to_regex_segments "/users/:id" users_pattern Hcompiled).
Defined.
End LiteralPaths.

(** ** Compiling and matching well-formed paths *)
Section WellFormedPaths.
Import Sinatra.

Lemma is_ascii_all_chars (s : string) :
  Str.is_ascii s = Discovery.all_chars Str.is_ascii_char s.
Proof. induction s as [| c s IH]; [done |]. simpl. by rewrite IH. Qed.

Lemma all_word_all_chars (s : string) :
  Str.all_word s = Discovery.all_chars Str.is_word s.
Proof. induction s as [| c s IH]; [done |]. simpl. by rewrite IH. Qed.

Lemma all_chars_impl (test test' : ascii → bool) (s : string) :
  (∀ c, test c = true → test' c = true) →
  Discovery.all_chars test s = true → Discovery.all_chars test' s = true.
Proof.
  intros Himpl. induction s as [| c s IH]; [done |]. simpl.
  intros [Hc Hs]%andb_true_iff. by rewrite (Himpl c Hc), (IH Hs).
Qed.

(** Word characters are ASCII, stand for themselves in a pattern, and
    are neither a slash nor the end of a group name. *)
Lemma word_table :
  forallb (fun c =>
    implb (Str.is_word c)
          (literal_char c && negb (Ascii.eqb c ">") && negb (Ascii.eqb c "(")))
    Discovery.all_ascii = true.
Proof. vm_compute. reflexivity. Qed.

Lemma is_word_literal (c : ascii) :
  Str.is_word c = true →
  literal_char c = true ∧ c ≠ ">"%char ∧ c ≠ "("%char.
Proof.
  intros Hc. pose proof (all_ascii_complete _ word_table c) as Hall.
  cbv beta in Hall. rewrite Hc in Hall. cbn [implb] in Hall.
  apply andb_true_iff in Hall as [[? ?%negb_true_iff]%andb_true_iff ?%negb_true_iff].
  repeat split; [done | |]; intros ->; done.
Qed.

Lemma literal_char_spec (c : ascii) :
  literal_char c = true →
  Str.is_ascii_char c = true ∧ Re.is_meta c = false
  ∧ Ascii.eqb c "/" = false ∧ Ascii.eqb c "(" = false.
Proof.
  unfold literal_char.
  intros [[? ?%negb_true_iff]%andb_true_iff ?%negb_true_iff]%andb_true_iff.
  repeat split; try done.
  destruct (Ascii.eqb c "(") eqn:Hc; [| done].
  apply Ascii.eqb_eq in Hc as ->. done.
Qed.

Lemma is_meta_backslash (c : ascii) :
  Re.is_meta c = false → Ascii.eqb c "\" = false.
Proof.
  intros Hmeta. destruct (Ascii.eqb c "\") eqn:Hc; [| done].
  apply Ascii.eqb_eq in Hc as ->. done.
Qed.

(** Parsing literal text, a slash, and a group. *)
Lemma parse_literal (text : string) (acc : list Re.item) (src rest : string) :
  Discovery.all_chars literal_char text = true →
  Re.parse Re.Top acc src (text ++ rest)
  = Re.parse Re.Top (acc ++ literal text) src rest.
Proof.
  revert acc. induction text as [| c text IH]; intros acc.
  - intros _. unfold literal. simpl. by rewrite app_nil_r.
  - simpl. intros [Hc Htext]%andb_true_iff.
    apply literal_char_spec in Hc as (_ & Hmeta & _ & Hparen).
    change (Re.parse Re.Top acc src (String c (text ++ rest))
            = Re.parse Re.Top (acc ++ Re.Lit c :: literal text) src rest).
    cbn [Re.parse Re.step]. rewrite Hparen, Hmeta.
    rewrite (IH _ Htext). by rewrite <- app_assoc.
Qed.

Lemma parse_name (name pre : string) (acc : list Re.item) (src tail : string) :
  Str.all_word name = true →
  Re.parse (Re.Name pre) acc src (name ++ String ">" tail)
  = match Re.step (Re.Name (pre ++ name)) acc ">" with
    | Re.Go m acc' => Re.parse m acc' src tail
    | Re.Stop r => r
    end.
Proof.
  revert pre. induction name as [| c name IH]; intros pre.
  - intros _. by rewrite str_app_nil_r.
  - cbn [Str.all_word]. intros [Hc Hname]%andb_true_iff.
    apply is_word_literal in Hc as (Hlit & Hgt & _).
    apply literal_char_spec in Hlit as (_ & Hbackslash%is_meta_backslash & _).
    replace (pre ++ String c name) with ((pre ++ String c "") ++ name)
      by (by rewrite str_app_assoc).
    rewrite <- (IH _ Hname).
    change (String c name ++ String ">" tail)
      with (String c (name ++ String ">" tail)).
    cbn [Re.parse]. unfold Re.step.
    by rewrite (proj2 (Ascii.eqb_neq c ">") Hgt), Hbackslash.
Qed.

Lemma isidentifier_all_word (name : string) :
  Str.isidentifier name = true → Str.all_word name = true ∧ name ≠ "".
Proof.
  destruct name as [| c name]; [done |]. simpl.
  intros [[Hc _]%andb_true_iff Hname]%andb_true_iff. by rewrite Hc, Hname.
Qed.

Lemma parse_group (name : string) (acc : list Re.item) (src rest : string) :
  Str.isidentifier name = true →
  Re.parse Re.Top acc src (("(?P<" ++ name ++ ">\w+)") ++ rest)
  = if bool_decide (name ∈ Re.group_names acc)
    then Re.Raises (Re.Redefinition name)
    else Re.parse Re.Top (acc ++ [Re.NamedWord name]) src rest.
Proof.
  intros Hid. destruct (isidentifier_all_word name Hid) as [Hword Hne].
  replace (("(?P<" ++ name ++ ">\w+)") ++ rest)
    with ("(?P<" ++ (name ++ String ">" ("\w+)" ++ rest)))
    by (by rewrite !str_app_assoc).
  change (Re.parse Re.Top acc src ("(?P<" ++ (name ++ String ">" ("\w+)" ++ rest))))
    with (Re.parse (Re.Name "") acc src (name ++ String ">" ("\w+)" ++ rest))).
  rewrite (parse_name name "" acc src _ Hword).
  change ("" ++ name) with name. unfold Re.step.
  rewrite Ascii.eqb_refl.
  destruct (String.eqb name "") eqn:Hempty; [by apply String.eqb_eq in Hempty |].
  rewrite Hid. simpl negb. cbv iota.
  destruct (bool_decide (name ∈ Re.group_names acc)); reflexivity.
Qed.

Lemma group_names_app (a b : list Re.item) :
  Re.group_names (a ++ b) = (Re.group_names a ++ Re.group_names b)%list.
Proof. unfold Re.group_names. apply omap_app. Qed.

Lemma group_names_literal (text : string) : Re.group_names (literal text) = [].
Proof.
  unfold literal. induction (String.list_ascii_of_string text) as [| c l IH]; done.
Qed.

Lemma names_cons (seg : segment) (segs : list segment) :
  names (seg :: segs)
  = match seg with
    | Param name => name :: names segs
    | Plain _ => names segs
    end.
Proof. by destruct seg. Qed.

Lemma group_names_items (seg : segment) :
  Re.group_names (items seg) = names [seg].
Proof. destruct seg; [apply group_names_literal | done]. Qed.

Lemma parse_segment (seg : segment) (acc : list Re.item) (src rest : string) :
  well_formed seg = true →
  (∀ name, name ∈ names [seg] → name ∉ Re.group_names acc) →
  Re.parse Re.Top acc src (regex_source seg ++ rest)
  = Re.parse Re.Top (acc ++ items seg) src rest.
Proof.
  destruct seg as [text | name]; unfold well_formed, regex_source, items.
  - intros [Htext _]%andb_true_iff _. by apply parse_literal.
  - intros Hid Hfresh. rewrite (parse_group name acc src rest Hid).
    rewrite bool_decide_false; [done |]. apply Hfresh, list_elem_of_here.
Qed.

Lemma parse_slash (acc : list Re.item) (src rest : string) :
  Re.parse Re.Top acc src (String "/" rest)
  = Re.parse Re.Top (acc ++ [Re.Lit "/"]) src rest.
Proof. reflexivity. Qed.

Lemma parse_segments (segs : list segment) (acc : list Re.item)
    (src rest : string) :
  Forall (fun seg => well_formed seg = true) segs →
  NoDup (names segs) →
  (∀ name, name ∈ names segs → name ∉ Re.group_names acc) →
  Re.parse Re.Top acc src (Str.join "/" (map regex_source segs) ++ rest)
  = Re.parse Re.Top (acc ++ program segs) src rest.
Proof.
  intros Hwf. revert acc. induction Hwf as [| seg segs Hseg Hsegs IH]; intros acc.
  { intros _ _. simpl. by rewrite app_nil_r. }
  intros Hnodup Hfresh.
  assert (∀ name, name ∈ names [seg] → name ∉ Re.group_names acc) as Hfresh1.
  { intros name Hname. apply Hfresh. rewrite names_cons.
    destruct seg; [by apply elem_of_nil in Hname |].
    apply list_elem_of_singleton in Hname as ->. apply list_elem_of_here. }
  destruct segs as [| seg' segs].
  { simpl. by apply parse_segment. }
  change (Str.join "/" (map regex_source (seg :: seg' :: segs)))
    with (regex_source seg ++ String "/" (Str.join "/" (map regex_source (seg' :: segs)))).
  change (program (seg :: seg' :: segs))
    with (items seg ++ Re.Lit "/" :: program (seg' :: segs))%list.
  rewrite str_app_assoc, (parse_segment seg acc src _ Hseg Hfresh1).
  change (String "/" (Str.join "/" (map regex_source (seg' :: segs))) ++ rest)
    with (String "/" (Str.join "/" (map regex_source (seg' :: segs)) ++ rest)).
  rewrite parse_slash, IH.
  - by rewrite <- !app_assoc.
  - rewrite names_cons in Hnodup. destruct seg; [done |].
    by apply NoDup_cons in Hnodup as [_ ?].
  - intros name Hname. rewrite !group_names_app, group_names_items.
    change (Re.group_names [Re.Lit "/"]) with (@nil string). rewrite app_nil_r.
    rewrite not_elem_of_app. split.
    + apply Hfresh. rewrite names_cons. destruct seg; [done |].
      by apply list_elem_of_further.
    + rewrite names_cons in Hnodup. destruct seg as [text | name'].
      * by intros ?%elem_of_nil.
      * apply NoDup_cons in Hnodup as [Hnew _].
        intros ->%list_elem_of_singleton. done.
Qed.

Lemma is_ascii_app (a b : string) :
  Str.is_ascii (a ++ b) = Str.is_ascii a && Str.is_ascii b.
Proof. rewrite !is_ascii_all_chars. apply all_chars_app. Qed.

Lemma is_ascii_join (sep : string) (parts : list string) :
  Str.is_ascii sep = true → Forall (fun p => Str.is_ascii p = true) parts →
  Str.is_ascii (Str.join sep parts) = true.
Proof.
  intros Hsep Hparts. induction Hparts as [| p parts Hp _ IH]; [done |].
  destruct parts as [| p' parts]; [done |].
  change (Str.join sep (p :: p' :: parts)) with (p ++ sep ++ Str.join sep (p' :: parts)).
  by rewrite !is_ascii_app, Hp, Hsep, IH.
Qed.

Lemma all_word_ascii (s : string) :
  Str.all_word s = true → Str.is_ascii s = true.
Proof.
  rewrite all_word_all_chars, is_ascii_all_chars. apply all_chars_impl.
  intros c Hc. apply is_word_literal in Hc as [Hc _].
  by apply literal_char_spec in Hc as [? _].
Qed.

Lemma all_word_free (s : string) :
  Str.all_word s = true → free_of "/" s.
Proof.
  rewrite all_word_all_chars. apply all_chars_impl.
  intros c Hc. apply is_word_literal in Hc as [Hc _].
  apply literal_char_spec in Hc as (_ & _ & Hslash & _). by rewrite Hslash.
Qed.

Lemma well_formed_source (seg : segment) :
  well_formed seg = true →
  Str.is_ascii (source seg) = true
  ∧ Str.is_ascii (regex_source seg) = true
  ∧ free_of "/" (source seg)
  ∧ (if Router.sinatra_param_match (source seg)
     then "(?P<" ++ Str.tail (source seg) ++ ">\w+)" else source seg)
    = regex_source seg.
Proof.
  destruct seg as [text | name]; unfold well_formed, source, regex_source.
  - intros [Htext Hplain%negb_true_iff]%andb_true_iff. rewrite Hplain.
    assert (Str.is_ascii text = true) as Hascii.
    { rewrite is_ascii_all_chars. revert Htext. apply all_chars_impl.
      by intros c [? _]%literal_char_spec. }
    repeat split; try done.
    revert Htext. apply all_chars_impl.
    intros c (_ & _ & Hslash & _)%literal_char_spec. by rewrite Hslash.
  - intros Hid. pose proof (isidentifier_all_word name Hid) as [Hword Hne].
    pose proof (all_word_ascii name Hword) as Hascii.
    assert (Router.sinatra_param_match (String ":" name) = true) as ->.
    { destruct name as [| c name]; [done |]. simpl in *.
      by apply andb_true_iff in Hword as [? _]. }
    repeat split.
    + simpl. by rewrite Hascii.
    + by rewrite !is_ascii_app, Hascii.
    + unfold free_of. simpl. by apply all_word_free.
Qed.

(** Splitting the path, rewriting its segments and parsing the result. *)
Lemma compile_well_formed (segs : list segment) :
  segs ≠ [] →
  Forall (fun seg => well_formed seg = true) segs →
  NoDup (names segs) →
  Router.sinatra_path_to_regex (PathStr (path_of segs))
  = Re.Compiled (pattern_of segs).
Proof.
  intros Hne Hwf Hnodup. unfold Router.sinatra_path_to_regex, path_of.
  assert (Str.is_ascii (Str.join "/" (map source segs)) = true) as ->.
  { apply is_ascii_join; [done |]. apply Forall_fmap.
    eapply Forall_impl; [exact Hwf |]. by intros seg [? _]%well_formed_source. }
  rewrite (split_join "/").
  2:{ by destruct segs. }
  2:{ apply Forall_fmap. eapply Forall_impl; [exact Hwf |].
      by intros seg (_ & _ & ? & _)%well_formed_source. }
  rewrite mapM_segment_regex, map_map.
  assert (map (fun seg =>
                 if Router.sinatra_param_match (source seg)
                 then "(?P<" ++ Str.tail (source seg) ++ ">\w+)" else source seg)
            segs = map regex_source segs) as ->.
  { apply Forall_fmap_ext_1. eapply Forall_impl; [exact Hwf |].
    by intros seg (_ & _ & _ & ?)%well_formed_source. }
  unfold Re.compile.
  assert (Str.is_ascii (Str.join "/" (map regex_source segs)) = true) as ->.
  { apply is_ascii_join; [done |]. apply Forall_fmap.
    eapply Forall_impl; [exact Hwf |]. by intros seg (_ & ? & _)%well_formed_source. }
  pose proof (parse_segments segs [] (Str.join "/" (map regex_source segs)) ""
                Hwf Hnodup) as Hparse.
  rewrite str_app_nil_r in Hparse. rewrite Hparse; [done |].
  intros name _. apply not_elem_of_nil.
Qed.

(** X12: a path made of literal segments and of parameters with
    distinct identifiers as names is compiled, and the pattern is the
    one expected: its source has a named group [\w+] in the place of each
    parameter, its program matches the literal segments character by
    character, the slashes between them, and a group per parameter. *)
Theorem sinatra_path_to_regex_well_formed (segs : list segment) :
  segs ≠ [] →
  Forall (fun seg => well_formed seg = true) segs →
  NoDup (names segs) →
  Router.sinatra_path_to_regex (PathStr (path_of segs))
  = Re.Compiled (pattern_of segs).
Proof. apply compile_well_formed. Qed.

Lemma sinatra_path_to_regex_well_formed_witness :
  [Plain ""; Plain "users"; Param "id"] ≠ []
  ∧ Forall (fun seg => well_formed seg = true) [Plain ""; Plain "users"; Param "id"]
  ∧ NoDup (names [Plain ""; Plain "users"; Param "id"])
  ∧ Router.sinatra_path_to_regex (PathStr "/users/:id")
    = Re.Compiled (Re.mkPattern "/users/(?P<id>\w+)"
        [Re.Lit "/"; Re.Lit "u"; Re.Lit "s"; Re.Lit "e"; Re.Lit "r"; Re.Lit "s";
         Re.Lit "/"; Re.NamedWord "id"]%char).
Proof.
  assert ([Plain ""; Plain "users"; Param "id"] ≠ []) as Hne by done.
  assert (Forall (fun seg => well_formed seg = true)
            [Plain ""; Plain "users"; Param "id"]) as Hwf by (repeat constructor).
  assert (NoDup (names [Plain ""; Plain "users"; Param "id"])) as Hnodup.
  { change (NoDup ["id"]). apply NoDup_singleton. }
  split; [exact Hne |]. split; [exact Hwf |]. split; [exact Hnodup |].
  exact (sinatra_path_to_regex_well_formed _ Hne Hwf Hnodup).
Defined.

(** Running the program of a pattern. *)
Lemma run_literal (text : string) (its : list Re.item) (s : string) :
  Re.run (literal text ++ its) (text ++ s) = Re.run its s.
Proof.
  induction text as [| c text IH]; [done |].
  change (Re.run (Re.Lit c :: (literal text ++ its)) (String c (text ++ s))
          = Re.run its s).
  cbn [Re.run]. by rewrite Ascii.eqb_refl.
Qed.

Lemma word_plus_whole {R} (k : string → string → option R)
    (w taken s : string) (r : R) :
  w ≠ "" → Str.all_word w = true → ends_word s = true →
  k (taken ++ w) s = Some r →
  Re.word_plus k taken (w ++ s) = Some r.
Proof.
  revert taken. induction w as [| c w IH]; intros taken Hne Hword Hs Hk; [done |].
  cbn [Str.all_word] in Hword. apply andb_true_iff in Hword as [Hc Hw].
  change (Re.word_plus k taken (String c (w ++ s)) = Some r).
  cbn [Re.word_plus]. rewrite Hc.
  destruct w as [| c' w].
  - change ("" ++ s) with s.
    assert (Re.word_plus k (taken ++ String c "") s = None) as ->.
    { destruct s as [| c' s]; [done |]. simpl in *.
      by rewrite (proj1 (negb_true_iff _) Hs). }
    done.
  - rewrite (IH (taken ++ String c "")); try done.
    by rewrite str_app_assoc.
Qed.

Lemma str_length_app (a b : string) :
  String.length (a ++ b) = String.length a + String.length b.
Proof.
  induction a as [| c a IH]; [done |].
  change (S (String.length (a ++ b)) = S (String.length a + String.length b)).
  by rewrite IH.
Qed.

Lemma run_segments (env : string → string) (segs : list segment) (rest : string) :
  segs ≠ [] →
  Forall (fun seg => well_formed seg = true) segs →
  NoDup (names segs) →
  (∀ name, name ∈ names segs →
           env name ≠ "" ∧ Str.all_word (env name) = true) →
  ends_word rest = true →
  ∃ groups,
    Re.run (program segs) (request_of env segs ++ rest) = Some (groups, rest)
    ∧ ∀ name, name ∈ names segs → groups !! name = Some (env name).
Proof.
  intros Hne Hwf. unfold request_of.
  induction Hwf as [| seg segs Hseg Hsegs IH]; [done |].
  intros Hnodup Hvalues Hrest. clear Hne.
  destruct segs as [| seg' segs].
  - (* the last segment *)
    destruct seg as [text | name].
    + exists ∅. split; [| by intros ? ?%elem_of_nil].
      change (Re.run (literal text) (text ++ rest) = Some (∅, rest)).
      rewrite <- (app_nil_r (literal text)). by rewrite run_literal.
    + exists (<[name := env name]> ∅).
      destruct (Hvalues name) as [Hvalue Hword]; [apply list_elem_of_here |].
      split.
      * change (Re.run [Re.NamedWord name] (env name ++ rest)
                = Some (<[name := env name]> ∅, rest)).
        cbn [Re.run]. by apply word_plus_whole.
      * intros name' ->%list_elem_of_singleton. apply lookup_insert_eq.
  - (* a segment, a slash, and more *)
    destruct IH as (groups & Hrun & Hgroups); [done | | | done |].
    { rewrite names_cons in Hnodup. destruct seg; [done |].
      by apply NoDup_cons in Hnodup as [_ ?]. }
    { intros name Hname. apply Hvalues. rewrite names_cons.
      destruct seg; [done | by apply list_elem_of_further]. }
    change (Str.join "/" (map (fill env) (seg :: seg' :: segs)))
      with (fill env seg ++ String "/" (Str.join "/" (map (fill env) (seg' :: segs)))).
    change (program (seg :: seg' :: segs))
      with (items seg ++ Re.Lit "/" :: program (seg' :: segs))%list.
    rewrite str_app_assoc.
    change (String "/" (Str.join "/" (map (fill env) (seg' :: segs))) ++ rest)
      with (String "/" (Str.join "/" (map (fill env) (seg' :: segs)) ++ rest)).
    destruct seg as [text | name].
    + exists groups. split; [| done].
      change (fill env (Plain text)) with text.
      change (items (Plain text)) with (literal text).
      rewrite run_literal. cbn [Re.run]. by rewrite Ascii.eqb_refl.
    + exists (<[name := env name]> groups).
      destruct (Hvalues name) as [Hvalue Hword]; [apply list_elem_of_here |].
      split.
      * change (fill env (Param name)) with (env name).
        change (items (Param name) ++ Re.Lit "/" :: program (seg' :: segs))%list
          with (Re.NamedWord name :: Re.Lit "/" :: program (seg' :: segs)).
        cbn [Re.run]. apply word_plus_whole; try done.
        change ("" ++ env name) with (env name).
        rewrite Ascii.eqb_refl, Hrun. done.
      * rewrite names_cons in Hnodup. apply NoDup_cons in Hnodup as [Hnew _].
        intros name' [-> | Hname']%elem_of_cons; [apply lookup_insert_eq |].
        rewrite lookup_insert_ne; [by apply Hgroups |]. by intros ->.
Qed.

(** X13: the pattern compiled from such a path matches every request
    that fills its parameters with words: the literal segments as they
    are, a non-empty run of word characters for each parameter, and
    after them nothing, or something that does not begin with a word
    character (a further [/segment], for one).  The match ends where
    the filled path ends, and each parameter has captured its word. *)
Theorem well_formed_pattern_matches (env : string → string)
    (segs : list segment) (rest : string) :
  segs ≠ [] →
  Forall (fun seg => well_formed seg = true) segs →
  NoDup (names segs) →
  (∀ name, name ∈ names segs →
           env name ≠ "" ∧ Str.all_word (env name) = true) →
  Str.is_ascii rest = true → ends_word rest = true →
  ∃ m,
    Router.sinatra_path_to_regex (PathStr (path_of segs))
    = Re.Compiled (pattern_of segs)
    ∧ Re.match_ (pattern_of segs) (request_of env segs ++ rest) = Re.Matched m
    ∧ Re.m_end m = String.length (request_of env segs)
    ∧ ∀ name, name ∈ names segs → Re.groupdict m !! name = Some (env name).
Proof.
  intros Hne Hwf Hnodup Hvalues Hascii Hrest.
  destruct (run_segments env segs rest Hne Hwf Hnodup Hvalues Hrest)
    as (groups & Hrun & Hgroups).
  exists (Re.mkMatch (String.length (request_of env segs)) groups).
  split; [by apply compile_well_formed |].
  split; [| done]. unfold Re.match_.
  assert (Str.is_ascii (request_of env segs ++ rest) = true) as ->.
  { rewrite is_ascii_app, Hascii, andb_true_r.
    apply is_ascii_join; [done |]. apply Forall_fmap, Forall_forall.
    intros seg Hseg. rewrite Forall_forall in Hwf. specialize (Hwf seg Hseg).
    destruct seg as [text | name]; simpl.
    - by apply well_formed_source in Hwf as [? _].
    - apply all_word_ascii, Hvalues.
      apply list_elem_of_omap. exists (Param name). done. }
  cbn [Re.prog pattern_of]. rewrite Hrun. do 2 f_equal.
  rewrite str_length_app. lia.
Qed.

Lemma well_formed_pattern_matches_witness :
  ∃ m,
    Router.sinatra_path_to_regex (PathStr "/users/:id")
    = Re.Compiled (pattern_of [Plain ""; Plain "users"; Param "id"])
    ∧ Re.match_ (pattern_of [Plain ""; Plain "users"; Param "id"]) "/users/42/edit"
      = Re.Matched m
    ∧ Re.m_end m = 9
    ∧ ∀ name, name ∈ ["id"] → Re.groupdict m !! name = Some "42".
Proof.
  exact (well_formed_pattern_matches (fun _ => "42")
           [Plain ""; Plain "users"; Param "id"] "/edit"
           ltac:(done) ltac:(repeat constructor)
           ltac:(apply NoDup_singleton)
           ltac:(intros name _; split; [done | reflexivity])
           eq_refl eq_refl).
Defined.

Lemma join_cons (sep x : string) (l : list string) :
  l ≠ [] → Str.join sep (x :: l) = x ++ sep ++ Str.join sep l.
Proof. by destruct l. Qed.

Lemma join_app (sep : string) (l1 l2 : list string) :
  l1 ≠ [] → l2 ≠ [] →
  Str.join sep (l1 ++ l2) = Str.join sep l1 ++ sep ++ Str.join sep l2.
Proof.
  intros Hl1 Hl2. induction l1 as [| x l1 IH]; [done |].
  destruct l1 as [| y l1].
  - change ([x] ++ l2)%list with (x :: l2). by rewrite join_cons.
  - change ((x :: y :: l1) ++ l2)%list with (x :: ((y :: l1) ++ l2))%list.
    rewrite !join_cons by done. rewrite IH by done.
    by rewrite !str_app_assoc.
Qed.

Lemma is_ascii_join_inv (sep : string) (parts : list string) :
  Str.is_ascii (Str.join sep parts) = true →
  Forall (fun p => Str.is_ascii p = true) parts.
Proof.
  induction parts as [| p parts IH]; [constructor |].
  destruct parts as [| p' parts].
  - simpl. by repeat constructor.
  - rewrite join_cons by done. rewrite !is_ascii_app.
    intros [Hp [_ Hparts]%andb_true_iff]%andb_true_iff. constructor; auto.
Qed.

(** What the comprehension writes for a segment. *)
Lemma written_ascii (segment : string) :
  Str.is_ascii segment = true →
  Str.is_ascii (if Router.sinatra_param_match segment
                then "(?P<" ++ Str.tail segment ++ ">\w+)" else segment) = true.
Proof.
  intros Hascii. destruct (Router.sinatra_param_match segment); [| done].
  rewrite !is_ascii_app. destruct segment as [| c segment]; [done |].
  simpl in *. apply andb_true_iff in Hascii as [_ ->]. done.
Qed.

(** On an ASCII path the work is left to the parser of patterns. *)
Lemma sinatra_path_to_regex_parse (s : string) :
  Str.is_ascii s = true →
  let src := Str.join "/"
               (map (fun segment =>
                       if Router.sinatra_param_match segment
                       then "(?P<" ++ Str.tail segment ++ ">\w+)" else segment)
                  (Str.split "/" s)) in
  Router.sinatra_path_to_regex (PathStr s) = Re.parse Re.Top [] src src.
Proof.
  intros Hascii src. unfold Router.sinatra_path_to_regex.
  rewrite Hascii, mapM_segment_regex. fold src. unfold Re.compile.
  assert (Str.is_ascii src = true) as ->; [| done].
  apply is_ascii_join; [done |]. apply Forall_fmap.
  eapply Forall_impl.
  - apply (is_ascii_join_inv "/"). by rewrite (join_split "/" s).
  - intros seg. apply written_ascii.
Qed.

Lemma group_names_program (segs : list segment) :
  Re.group_names (program segs) = names segs.
Proof.
  induction segs as [| seg segs IH]; [done |].
  destruct segs as [| seg' segs].
  - apply group_names_items.
  - change (program (seg :: seg' :: segs))
      with (items seg ++ Re.Lit "/" :: program (seg' :: segs))%list.
    rewrite group_names_app, group_names_items.
    change (Re.group_names (Re.Lit "/" :: program (seg' :: segs)))
      with (Re.group_names (program (seg' :: segs))).
    rewrite IH, (names_cons seg). by destruct seg.
Qed.

(** Parsing up to a segment that follows well-formed ones. *)
Lemma parse_up_to (before : list segment) (written : string)
    (others : list string) (src : string) :
  Forall (fun seg => well_formed seg = true) before →
  NoDup (names before) →
  ∃ acc post,
    Re.group_names acc = names before
    ∧ Re.parse Re.Top [] src
        (Str.join "/" (map regex_source before ++ written :: others))
      = Re.parse Re.Top acc src (written ++ post).
Proof.
  intros Hwf Hnodup.
  assert (∃ post, Str.join "/" (written :: others) = written ++ post)
    as [post Hpost].
  { destruct others as [| o others]; [exists ""; by rewrite str_app_nil_r |].
    eexists. by rewrite join_cons. }
  destruct before as [| seg before].
  - exists [], post. split; [done |]. simpl app. by rewrite Hpost.
  - exists (program (seg :: before) ++ [Re.Lit "/"])%list, post. split.
    + rewrite group_names_app, group_names_program. apply app_nil_r.
    + rewrite join_app by done. rewrite Hpost.
      rewrite parse_segments; [| done | done | by intros ? _; apply not_elem_of_nil].
      reflexivity.
Qed.

(** X14: a path in which two parameters have the same name cannot be
    compiled: [re.compile] refuses the second group. *)
Theorem sinatra_path_to_regex_repeated_name (before between after : list segment)
    (name : string) :
  Forall (fun seg => well_formed seg = true)
    (before ++ Param name :: between ++ Param name :: after) →
  NoDup (names (before ++ Param name :: between)) →
  Router.sinatra_path_to_regex
    (PathStr (path_of (before ++ Param name :: between ++ Param name :: after)))
  = Re.Raises (Re.Redefinition name).
Proof.
  intros Hwf Hnodup.
  set (first := (before ++ Param name :: between)%list).
  assert ((before ++ Param name :: between ++ Param name :: after)%list
          = (first ++ Param name :: after)%list) as Hsegs.
  { unfold first. by rewrite <- app_assoc. }
  rewrite Hsegs in *. clear Hsegs.
  apply Forall_app in Hwf as [Hfirst Hlast].
  apply Forall_cons in Hlast as [Hname Hafter].
  assert (Forall (fun seg => well_formed seg = true) (first ++ Param name :: after))
    as Hwf by (apply Forall_app; split; [done | by constructor]).
  unfold path_of.
  assert (Str.is_ascii (Str.join "/" (map source (first ++ Param name :: after))) = true)
    as Hascii.
  { apply is_ascii_join; [done |]. apply Forall_fmap.
    eapply Forall_impl; [exact Hwf |]. by intros seg [? _]%well_formed_source. }
  rewrite (sinatra_path_to_regex_parse _ Hascii). cbv zeta.
  rewrite (split_join "/").
  2:{ by destruct first. }
  2:{ apply Forall_fmap. eapply Forall_impl; [exact Hwf |].
      by intros seg (_ & _ & ? & _)%well_formed_source. }
  rewrite map_map.
  assert (map (fun seg =>
                 if Router.sinatra_param_match (source seg)
                 then "(?P<" ++ Str.tail (source seg) ++ ">\w+)" else source seg)
            (first ++ Param name :: after)
          = (map regex_source first
             ++ regex_source (Param name) :: map regex_source after)%list) as ->.
  { transitivity (map regex_source (first ++ Param name :: after));
      [| by rewrite map_app].
    apply Forall_fmap_ext_1. eapply Forall_impl; [exact Hwf |].
    by intros seg (_ & _ & _ & ?)%well_formed_source. }
  destruct (parse_up_to first (regex_source (Param name)) (map regex_source after)
              (Str.join "/" (map regex_source first
                 ++ regex_source (Param name) :: map regex_source after))
              Hfirst Hnodup) as (acc & post & Hacc & ->).
  unfold regex_source at 3. rewrite (parse_group name acc _ post Hname).
  rewrite bool_decide_true; [done |]. rewrite Hacc. unfold first.
  apply list_elem_of_omap. exists (Param name). split; [| done].
  apply elem_of_app. right. apply list_elem_of_here.
Qed.

Lemma sinatra_path_to_regex_repeated_name_witness :
  Forall (fun seg => well_formed seg = true)
    ([Plain ""; Plain "a"] ++ Param "id" :: [Plain "b"] ++ Param "id" :: [])
  ∧ NoDup (names ([Plain ""; Plain "a"] ++ Param "id" :: [Plain "b"]))
  ∧ Router.sinatra_path_to_regex (PathStr "/a/:id/b/:id")
    = Re.Raises (Re.Redefinition "id").
Proof.
  assert (Forall (fun seg => well_formed seg = true)
            ([Plain ""; Plain "a"] ++ Param "id" :: [Plain "b"] ++ Param "id" :: []))
    as Hwf by (repeat constructor).
  assert (NoDup (names ([Plain ""; Plain "a"] ++ Param "id" :: [Plain "b"])))
    as Hnodup by (change (NoDup ["id"]); apply NoDup_singleton).
  split; [exact Hwf |]. split; [exact Hnodup |].
  exact (sinatra_path_to_regex_repeated_name
           [Plain ""; Plain "a"] [Plain "b"] [] "id" Hwf Hnodup).
Defined.

Lemma parse_name_until (name pre : string) (acc : list Re.item) (src tail : string) :
  Discovery.all_chars
    (fun c => negb (Ascii.eqb c ">") && negb (Ascii.eqb c "\")) name = true →
  Re.parse (Re.Name pre) acc src (name ++ String ">" tail)
  = match Re.step (Re.Name (pre ++ name)) acc ">" with
    | Re.Go m acc' => Re.parse m acc' src tail
    | Re.Stop r => r
    end.
Proof.
  revert pre. induction name as [| c name IH]; intros pre.
  - intros _. by rewrite str_app_nil_r.
  - cbn [Discovery.all_chars]. intros [Hc Hname]%andb_true_iff.
    apply andb_true_iff in Hc as [Hgt%negb_true_iff Hbackslash%negb_true_iff].
    replace (pre ++ String c name) with ((pre ++ String c "") ++ name)
      by (by rewrite str_app_assoc).
    rewrite <- (IH _ Hname).
    change (String c name ++ String ">" tail)
      with (String c (name ++ String ">" tail)).
    cbn [Re.parse]. unfold Re.step. by rewrite Hgt, Hbackslash.
Qed.

(** X15: a segment that begins with a colon and a word character is
    always taken for a parameter, named by all that follows the colon;
    when that is not an identifier (it begins with a digit, or holds a
    dot or a dash) and holds neither [>] nor a backslash, the path
    cannot be compiled: [re.compile] refuses the name of the group. *)
Theorem sinatra_path_to_regex_bad_name (before : list segment)
    (bad : string) (others : list string) :
  Forall (fun seg => well_formed seg = true) before →
  NoDup (names before) →
  Router.sinatra_param_match (String ":" bad) = true →
  Str.isidentifier bad = false →
  Discovery.all_chars
    (fun c => Str.is_ascii_char c && negb (Ascii.eqb c "/")
              && negb (Ascii.eqb c ">") && negb (Ascii.eqb c "\"))
    bad = true →
  Forall (fun other => Str.is_ascii other = true ∧ free_of "/" other) others →
  Router.sinatra_path_to_regex
    (PathStr (Str.join "/" (map source before ++ String ":" bad :: others)))
  = Re.Raises (Re.BadGroupName bad).
Proof.
  intros Hwf Hnodup Hparam Hbad Hchars Hothers.
  assert (Str.is_ascii bad = true ∧ free_of "/" bad
          ∧ Discovery.all_chars
              (fun c => negb (Ascii.eqb c ">") && negb (Ascii.eqb c "\")) bad = true)
    as (Hascii_bad & Hfree_bad & Hgt).
  { rewrite is_ascii_all_chars. unfold free_of.
    repeat split; revert Hchars; apply all_chars_impl; intros c;
      intros [[[? ?]%andb_true_iff ?]%andb_true_iff ?]%andb_true_iff;
      [done | done | by apply andb_true_iff]. }
  assert (Forall (fun p => Str.is_ascii p = true ∧ free_of "/" p)
            (map source before ++ String ":" bad :: others)) as Hparts.
  { apply Forall_app. split.
    - apply Forall_fmap. eapply Forall_impl; [exact Hwf |].
      by intros seg (? & _ & ? & _)%well_formed_source.
    - constructor; [| done]. split; [done |]. unfold free_of in *. done. }
  assert (Str.is_ascii
            (Str.join "/" (map source before ++ String ":" bad :: others)) = true)
    as Hascii.
  { apply is_ascii_join; [done |]. eapply Forall_impl; [exact Hparts |].
    by intros ? [? _]. }
  rewrite (sinatra_path_to_regex_parse _ Hascii). cbv zeta.
  rewrite (split_join "/").
  2:{ by destruct (map source before). }
  2:{ eapply Forall_impl; [exact Hparts |]. by intros ? [_ ?]. }
  rewrite map_app, map_map. cbn [map]. rewrite Hparam.
  assert (map (fun seg =>
                 if Router.sinatra_param_match (source seg)
                 then "(?P<" ++ Str.tail (source seg) ++ ">\w+)" else source seg)
            before = map regex_source before) as ->.
  { apply Forall_fmap_ext_1. eapply Forall_impl; [exact Hwf |].
    by intros seg (_ & _ & _ & ?)%well_formed_source. }
  change (Str.tail (String ":" bad)) with bad.
  match goal with
  | |- Re.parse Re.Top [] ?src ?src = _ =>
      destruct (parse_up_to before ("(?P<" ++ bad ++ ">\w+)")
                  (map (fun segment =>
                          if Router.sinatra_param_match segment
                          then "(?P<" ++ Str.tail segment ++ ">\w+)" else segment)
                     others) src Hwf Hnodup) as (acc & post & _ & ->)
  end.
  replace (("(?P<" ++ bad ++ ">\w+)") ++ post)
    with ("(?P<" ++ (bad ++ String ">" ("\w+)" ++ post)))
    by (by rewrite !str_app_assoc).
  match goal with
  | |- Re.parse Re.Top acc ?src _ = _ =>
      change (Re.parse (Re.Name "") acc src (bad ++ String ">" ("\w+)" ++ post))
              = Re.Raises (Re.BadGroupName bad))
  end.
  rewrite (parse_name_until bad "" acc _ _ Hgt).
  change ("" ++ bad) with bad. unfold Re.step.
  rewrite Ascii.eqb_refl, Hbad.
  destruct (String.eqb bad "") eqn:Hempty; [| done].
  apply String.eqb_eq in Hempty as ->. done.
Qed.

Lemma sinatra_path_to_regex_bad_name_witness :
  Router.sinatra_param_match ":42" = true
  ∧ Str.isidentifier "42" = false
  ∧ Router.sinatra_path_to_regex (PathStr "/users/:42/edit")
    = Re.Raises (Re.BadGroupName "42").
Proof.
  split; [reflexivity |]. split; [reflexivity |].
  exact (sinatra_path_to_regex_bad_name [Plain ""; Plain "users"] "42" ["edit"]
           ltac:(repeat constructor) ltac:(apply NoDup_nil_2)
           eq_refl eq_refl eq_refl ltac:(repeat constructor)).
Defined.
End WellFormedPaths.

(** ** Errors one after the other, and the future of the body *)
Section Connection.
Import GrowlerHTTPProtocol Connection.

Lemma handle_error_answer (error : Error) (w : World) :
  has_surrogate (error_text error) = false →
  has_surrogate (current_time w) = false →
  handle_error error w
  = (Returned,
     mkWorld
       (transport w
        ++ [bytes_of (let '(code, message, detail) := answer error in
                      SpecWire.response code message detail (current_time w))])
       (stderr w ++ trace error)
       (current_time w)).
Proof.
  intros Htext Hdate. destruct error as [code msg | text tb].
  - rewrite handle_error_http by done. unfold transport_write, trace. simpl.
    by rewrite str_app_nil_r.
  - rewrite handle_error_other by done.
    unfold transport_write, print_tb, print_stderr, trace.
    simpl. by rewrite !str_app_assoc.
Qed.

(** X16: however many errors are handled on a connection, as long as
    neither their texts nor the dates hold a surrogate, none of them
    makes [handle_error] raise; each adds one write after those already
    made, in the order of the errors and dated with the time of its
    handling, and the writes already made stay as they were; the error
    stream receives the traces of the errors that are not [HTTPError],
    in their order. *)
Theorem handle_errors_writes (errors : list (string * Error)) (w : World) :
  forallb encodable errors = true →
  ∃ w',
    handle_errors errors w = (Returned, w')
    ∧ transport w'
      = (transport w
         ++ map (fun '(now, error) =>
                   bytes_of (let '(code, message, detail) := answer error in
                             SpecWire.response code message detail now))
              errors)%list
    ∧ stderr w'
      = stderr w ++ String.concat "" (map (fun '(_, error) => trace error) errors).
Proof.
  revert w. induction errors as [| [now error] errors IH]; intros w Hall.
  - exists w. simpl. by rewrite app_nil_r, str_app_nil_r.
  - cbn [forallb] in Hall. apply andb_prop in Hall as [Hnow Hall].
    unfold encodable in Hnow. cbn [fst snd] in Hnow.
    apply andb_prop in Hnow as [Hdate%negb_true_iff Htext%negb_true_iff].
    cbn [handle_errors]. rewrite handle_error_answer by done.
    match goal with
    | |- context [handle_errors errors ?w1] =>
        destruct (IH w1 Hall) as (w' & -> & Htransport & Hstderr)
    end.
    exists w'. split; [done |]. simpl in *.
    rewrite Htransport, Hstderr, <- app_assoc.
    split; [done |].
    rewrite str_app_assoc. f_equal.
    destruct errors as [| [now' error'] errors]; simpl; [by rewrite str_app_nil_r | done].
Qed.

Lemma handle_errors_writes_witness :
  forallb encodable
    [ ("Tue, 03 Nov 2026 22:08:00 GMT", HTTPError 404 "Not Found");
      ("Tue, 03 Nov 2026 22:08:01 GMT", OtherError "boom" ["  File app.py, line 3"]) ]
  = true
  ∧ ∃ w',
      handle_errors
        [ ("Tue, 03 Nov 2026 22:08:00 GMT", HTTPError 404 "Not Found");
          ("Tue, 03 Nov 2026 22:08:01 GMT",
           OtherError "boom" ["  File app.py, line 3"]) ]
        Examples.quiet_world
      = (Returned, w')
      ∧ length (transport w') = 2.
Proof.
  split; [reflexivity |].
  destruct (handle_errors_writes
              [ ("Tue, 03 Nov 2026 22:08:00 GMT", HTTPError 404 "Not Found");
                ("Tue, 03 Nov 2026 22:08:01 GMT",
                 OtherError "boom" ["  File app.py, line 3"]) ]
              Examples.quiet_world eq_refl)
    as (w' & Hrun & Hwrites & _).
  exists w'. split; [exact Hrun |]. rewrite Hwrites. reflexivity.
Defined.

(** X20: an error whose text holds a surrogate is not answered:
    [handle_error] raises [UnicodeEncodeError] where it encodes the
    body, before the write; the transport receives nothing, and the
    trace of an error that is not an [HTTPError] has been printed. *)
Theorem handle_error_unencodable (error : Error) (w : World) :
  has_surrogate (error_text error) = true →
  handle_error error w
  = (Raised UnicodeEncodeError,
     mkWorld (transport w) (stderr w ++ trace error) (current_time w)).
Proof.
  intros Htext. destruct error as [code msg | text tb]; cbn [error_text] in Htext;
    unfold handle_error; rewrite format_err_str; unfold encode;
    rewrite has_surrogate_body, Htext.
  - cbn [orb]. unfold trace. rewrite str_app_nil_r. by destruct w.
  - change (has_surrogate "Server Error") with false. cbn [orb].
    unfold print_tb, print_stderr, trace. simpl. by rewrite !str_app_assoc.
Qed.

Lemma handle_error_unencodable_witness :
  has_surrogate (error_text (OtherError Examples.missing_file [])) = true
  ∧ handle_error (OtherError Examples.missing_file []) Examples.quiet_world
    = (Raised UnicodeEncodeError,
       mkWorld [] ("Unexpected Server Error" ++ String LF "")
         (current_time Examples.quiet_world)).
Proof.
  split; [reflexivity |].
  exact (handle_error_unencodable (OtherError Examples.missing_file [])
           Examples.quiet_world eq_refl).
Defined.

(** X17: when the future is no longer pending at the time the body is
    delivered (its consumer has cancelled it, or it has been resolved
    from elsewhere), the send raises [InvalidStateError] out of the
    generator, which is thereby finished: every later send raises
    [StopIteration], and the future keeps the state it had. *)
Theorem send_when_not_pending (f : Future) (x : pydata) (more : list pydata) :
  f ≠ Pending →
  drive (x :: more) (mkPair f AtFirstYield)
  = (InvalidStateError :: replicate (length more) StopIteration, mkPair f Closed).
Proof.
  intros Hf. cbn [drive].
  assert (send x (mkPair f AtFirstYield) = (InvalidStateError, mkPair f Closed)) as ->
    by (by destruct f).
  rewrite (drive_after_delivery more f Closed) by (by right).
  by destruct more.
Qed.

Lemma send_when_not_pending_witness :
  Cancelled ≠ Pending
  ∧ drive [Examples.test_data; PyNone] (mkPair Cancelled AtFirstYield)
    = ([InvalidStateError; StopIteration], mkPair Cancelled Closed).
Proof.
  split; [discriminate |].
  exact (send_when_not_pending Cancelled Examples.test_data [PyNone]
           ltac:(discriminate)).
Defined.

(** X18: from whatever state, a sequence of sends changes the future at
    most once: either the future is as it was, or it was pending and now
    holds one of the values sent.  A future that is resolved or
    cancelled is never touched again. *)
Theorem drive_resolves_once (values : list pydata) (p : Pair) :
  future (drive values p).2 = future p
  ∨ (future p = Pending
     ∧ ∃ v, v ∈ values ∧ future (drive values p).2 = Finished v).
Proof.
  revert p. induction values as [| v values IH]; intros p; [by left |].
  cbn [drive]. pose proof (send_future v p) as Hsend.
  destruct (send v p) as [o p1]. specialize (IH p1).
  destruct (drive values p1) as [os p2]. simpl in *.
  destruct Hsend as [Hsame | (Hpending & _ & Hfinished)].
  - rewrite Hsame in IH. destruct IH as [? | (? & v' & ? & ?)]; [by left |].
    right. split; [done |]. exists v'. split; [by apply list_elem_of_further | done].
  - right. split; [done |]. exists v. split; [apply list_elem_of_here |].
    destruct IH as [-> | (Hp1 & _)]; [done | congruence].
Qed.
End Connection.
